(** * Future Innovations Showcase 2050: the generation pipeline and its view

    A shallow embedding of [src/index.tsx]: the [App] component's four state
    cells, the asynchronous [fetchInnovations] pipeline (text generation,
    [JSON.parse], one image request per idea joined by [Promise.all], merge),
    the handlers [handleRegenerate], [handleOpenModal], [handleCloseModal],
    and the events the rendered tree can deliver to them.

    The two platform functions the pipeline depends on, [JSON.parse] and
    [Promise.all], are embedded after ECMA-404 / ECMA-262; the generative
    service is an environment record whose answers are arbitrary. *)

From Stdlib Require Import Ascii String.
From stdpp Require Import base option list strings.

Open Scope string_scope.
Set Warnings "-register-all".

(** ** JavaScript values that flow through the pipeline *)

(** What [JSON.parse] can return.  A number is kept as the lexeme it was
    written with (the pipeline never computes with one); an object keeps its
    members in source order. *)
Inductive JSON : Type :=
  | JNull
  | JBool (b : bool)
  | JNumber (lexeme : string)
  | JString (s : string)
  | JArray (elements : list JSON)
  | JObject (members : list (string * JSON)).

(** A value that may also be [undefined] ([None]).  The [Innovation]
    interface is a compile-time annotation only: at run time an idea is
    whatever [JSON.parse] produced. *)
Definition Value : Type := option JSON.

(** What a [throw] or a rejected promise carries: the two errors the
    language itself raises in this program, or whatever the client library
    or the service reports (credential, network, quota, ...). *)
Inductive Thrown : Type :=
  | SyntaxError
  | TypeError
  | ServiceError (detail : string).

(** State of a promise. *)
Inductive Promise (T : Type) : Type :=
  | Pending
  | Fulfilled (v : T)
  | Rejected (reason : Thrown).
Arguments Pending {T}.
Arguments Fulfilled {T} v.
Arguments Rejected {T} reason.

(** Sequencing of awaited steps inside one [try] block: the first rejection
    (or a step that never settles) ends the block. *)
Definition bind {A B : Type} (p : Promise A) (k : A -> Promise B) : Promise B :=
  match p with
  | Fulfilled v => k v
  | Rejected e => Rejected e
  | Pending => Pending
  end.

Definition settled {T : Type} (p : Promise T) : bool :=
  match p with Pending => false | _ => true end.

(** Own-property read [o.key] on an object built by [JSON.parse]: a later
    duplicate member overwrites an earlier one. *)
Fixpoint own_property (members : list (string * JSON)) (key : string) : Value :=
  match members with
  | [] => None
  | (k, v) :: rest =>
      match own_property rest key with
      | Some later => Some later
      | None => if String.eqb k key then Some v else None
      end
  end.

(** Property read [v.key] for the three keys the pipeline reads ([title],
    [description], [image_prompt]), none of which lives on a prototype:
    [null] throws, an object answers from its own members, every other value
    answers [undefined]. *)
Definition get (v : JSON) (key : string) : Thrown + Value :=
  match v with
  | JNull => inl TypeError
  | JObject members => inr (own_property members key)
  | _ => inr None
  end.

(** [ToString] as a template literal or [JSON.parse] applies it to a value
    that is a string or [undefined]. *)
Definition ToString (s : option string) : string :=
  match s with
  | Some s => s
  | None => "undefined"
  end.


(** ** [JSON.parse]

    The text is a byte string holding UTF-8.  The grammar is ECMA-404: a
    lexer that reads one byte per step, then a parser that reads one token
    per step and keeps the open arrays and objects on a stack.  [None] is the
    [SyntaxError] that [JSON.parse] throws. *)

Module JSONText.

Inductive Token : Type :=
  | TLBracket | TRBracket | TLBrace | TRBrace | TColon | TComma
  | TString (s : string)
  | TNumber (lexeme : string)
  | TTrue | TFalse | TNull.

Definition dquote : ascii := "034"%char.
Definition backslash : ascii := "092"%char.

Definition code (c : ascii) : N := N_of_ascii c.

Definition is_ws (c : ascii) : bool :=
  (code c =? 32)%N || (code c =? 9)%N || (code c =? 10)%N || (code c =? 13)%N.

Definition is_digit (c : ascii) : bool :=
  (48 <=? code c)%N && (code c <=? 57)%N.

Definition is_exp (c : ascii) : bool :=
  Ascii.eqb c "e" || Ascii.eqb c "E".

Definition is_sign (c : ascii) : bool :=
  Ascii.eqb c "+" || Ascii.eqb c "-".

Definition hex_value (c : ascii) : option N :=
  let n := code c in
  if (48 <=? n)%N && (n <=? 57)%N then Some (n - 48)%N
  else if (97 <=? n)%N && (n <=? 102)%N then Some (n - 87)%N
  else if (65 <=? n)%N && (n <=? 70)%N then Some (n - 55)%N
  else None.

(** The character after a backslash, other than [u]. *)
Definition simple_escape (c : ascii) : option ascii :=
  if Ascii.eqb c dquote then Some dquote
  else if Ascii.eqb c backslash then Some backslash
  else if Ascii.eqb c "/" then Some "/"%char
  else if Ascii.eqb c "b" then Some "008"%char
  else if Ascii.eqb c "f" then Some "012"%char
  else if Ascii.eqb c "n" then Some "010"%char
  else if Ascii.eqb c "r" then Some "013"%char
  else if Ascii.eqb c "t" then Some "009"%char
  else None.

(** A [\uXXXX] escape names one UTF-16 code unit; it is stored as the UTF-8
    bytes of that number (a surrogate half as its own three bytes). *)
Definition utf8_of_code_unit (n : N) : string :=
  if (n <? 128)%N then String (ascii_of_N n) ""
  else if (n <? 2048)%N then
    String (ascii_of_N (192 + n / 64)) (String (ascii_of_N (128 + n mod 64)) "")
  else
    String (ascii_of_N (224 + n / 4096))
      (String (ascii_of_N (128 + (n / 64) mod 64))
         (String (ascii_of_N (128 + n mod 64)) "")).

Definition punctuation (c : ascii) : option Token :=
  if Ascii.eqb c "[" then Some TLBracket
  else if Ascii.eqb c "]" then Some TRBracket
  else if Ascii.eqb c "{" then Some TLBrace
  else if Ascii.eqb c "}" then Some TRBrace
  else if Ascii.eqb c ":" then Some TColon
  else if Ascii.eqb c "," then Some TComma
  else None.

(** Where the lexer stands inside a number: an optional minus sign; a zero,
    or a nonzero digit and further digits; optionally a point and one or
    more digits; optionally [e] or [E], an optional sign, one or more
    digits. *)
Inductive NumStage : Type :=
  | NMinus | NZero | NInt | NDot | NFrac | NExp | NExpSign | NExpDigits.

Definition num_complete (st : NumStage) : bool :=
  match st with
  | NZero | NInt | NFrac | NExpDigits => true
  | NMinus | NDot | NExp | NExpSign => false
  end.

Definition num_step (st : NumStage) (c : ascii) : option NumStage :=
  match st with
  | NMinus =>
      if Ascii.eqb c "0" then Some NZero
      else if is_digit c then Some NInt else None
  | NZero =>
      if Ascii.eqb c "." then Some NDot
      else if is_exp c then Some NExp else None
  | NInt =>
      if is_digit c then Some NInt
      else if Ascii.eqb c "." then Some NDot
      else if is_exp c then Some NExp else None
  | NDot => if is_digit c then Some NFrac else None
  | NFrac =>
      if is_digit c then Some NFrac
      else if is_exp c then Some NExp else None
  | NExp =>
      if is_sign c then Some NExpSign
      else if is_digit c then Some NExpDigits else None
  | NExpSign => if is_digit c then Some NExpDigits else None
  | NExpDigits => if is_digit c then Some NExpDigits else None
  end.

Inductive Mode : Type :=
  | Gap
  | InString (acc : string)
  | InEscape (acc : string)
  | InUnicode (acc : string) (digits : nat) (value : N)
  | InNumber (st : NumStage) (acc : string).

Definition snoc (acc : string) (c : ascii) : string := acc ++ String c "".

Fixpoint lex (m : Mode) (s : string) : option (list Token) :=
  match s with
  | EmptyString =>
      match m with
      | Gap => Some []
      | InNumber st acc => if num_complete st then Some [TNumber acc] else None
      | _ => None
      end
  | String c rest =>
      match m with
      | Gap =>
          if is_ws c then lex Gap rest
          else match punctuation c with
          | Some t => cons t <$> lex Gap rest
          | None =>
              if Ascii.eqb c dquote then lex (InString "") rest
              else if Ascii.eqb c "-" then lex (InNumber NMinus "-") rest
              else if Ascii.eqb c "0" then lex (InNumber NZero "0") rest
              else if is_digit c then lex (InNumber NInt (String c "")) rest
              else match s with
              | String "t" (String "r" (String "u" (String "e" rest'))) =>
                  cons TTrue <$> lex Gap rest'
              | String "f" (String "a" (String "l" (String "s" (String "e" rest')))) =>
                  cons TFalse <$> lex Gap rest'
              | String "n" (String "u" (String "l" (String "l" rest'))) =>
                  cons TNull <$> lex Gap rest'
              | _ => None
              end
          end
      | InString acc =>
          if Ascii.eqb c dquote then cons (TString acc) <$> lex Gap rest
          else if Ascii.eqb c backslash then lex (InEscape acc) rest
          else if (code c <? 32)%N then None
          else lex (InString (snoc acc c)) rest
      | InEscape acc =>
          match simple_escape c with
          | Some d => lex (InString (snoc acc d)) rest
          | None => if Ascii.eqb c "u" then lex (InUnicode acc 0 0%N) rest else None
          end
      | InUnicode acc digits value =>
          match hex_value c with
          | None => None
          | Some d =>
              let value' := (16 * value + d)%N in
              if Nat.eqb digits 3
              then lex (InString (acc ++ utf8_of_code_unit value')) rest
              else lex (InUnicode acc (S digits) value') rest
          end
      | InNumber st acc =>
          match num_step st c with
          | Some st' => lex (InNumber st' (snoc acc c)) rest
          | None =>
              if negb (num_complete st) then None
              else if is_ws c then cons (TNumber acc) <$> lex Gap rest
              else match punctuation c with
              | Some t => (fun ts => TNumber acc :: t :: ts) <$> lex Gap rest
              | None => None
              end
          end
      end
  end.

(** An array or object that is still open, with what it holds so far
    (latest first). *)
Inductive Frame : Type :=
  | InArray (elements : list JSON)
  | InObject (members : list (string * JSON)) (key : string).

Inductive PState : Type :=
  | PValue (stack : list Frame)
  | PFirstElement (stack : list Frame)
  | PKey (first : bool) (members : list (string * JSON)) (stack : list Frame)
  | PColon (key : string) (members : list (string * JSON)) (stack : list Frame)
  | PAfter (v : JSON) (stack : list Frame).

Definition start_value (t : Token) (stack : list Frame) : option PState :=
  match t with
  | TString s => Some (PAfter (JString s) stack)
  | TNumber n => Some (PAfter (JNumber n) stack)
  | TTrue => Some (PAfter (JBool true) stack)
  | TFalse => Some (PAfter (JBool false) stack)
  | TNull => Some (PAfter JNull stack)
  | TLBracket => Some (PFirstElement stack)
  | TLBrace => Some (PKey true [] stack)
  | TRBracket | TRBrace | TColon | TComma => None
  end.

Definition pstep (st : PState) (t : Token) : option PState :=
  match st with
  | PValue stack => start_value t stack
  | PFirstElement stack =>
      match t with
      | TRBracket => Some (PAfter (JArray []) stack)
      | _ => start_value t (InArray [] :: stack)
      end
  | PKey first members stack =>
      match t with
      | TString k => Some (PColon k members stack)
      | TRBrace => if first then Some (PAfter (JObject []) stack) else None
      | _ => None
      end
  | PColon k members stack =>
      match t with
      | TColon => Some (PValue (InObject members k :: stack))
      | _ => None
      end
  | PAfter v [] => None
  | PAfter v (InArray elements :: stack) =>
      match t with
      | TComma => Some (PValue (InArray (v :: elements) :: stack))
      | TRBracket => Some (PAfter (JArray (rev (v :: elements))) stack)
      | _ => None
      end
  | PAfter v (InObject members k :: stack) =>
      match t with
      | TComma => Some (PKey false ((k, v) :: members) stack)
      | TRBrace => Some (PAfter (JObject (rev ((k, v) :: members))) stack)
      | _ => None
      end
  end.

Fixpoint parse (st : PState) (tokens : list Token) : option JSON :=
  match tokens with
  | [] => match st with PAfter v [] => Some v | _ => None end
  | t :: rest =>
      match pstep st t with
      | Some st' => parse st' rest
      | None => None
      end
  end.

End JSONText.

(** [JSON.parse(text)]: [None] when it throws [SyntaxError]. *)
Definition JSON_parse (text : string) : option JSON :=
  match JSONText.lex JSONText.Gap text with
  | Some tokens => JSONText.parse (JSONText.PValue []) tokens
  | None => None
  end.

(** Building a JSON text: a quoted string. *)
Definition q (s : string) : string :=
  String JSONText.dquote s ++ String JSONText.dquote "".

(** ** [Promise.all]

    ECMA-262, PerformPromiseAll: one slot per element, filled by that
    element's resolve function (which runs at most once: a filled slot is its
    [[AlreadyCalled]] flag), a counter of the slots still open, and the
    promise handed back to the caller, which keeps the first settlement it is
    given. *)

Section PromiseAll.

Context {T : Type}.

Record AllState : Type := mkAll {
  values : list (option T);
  remainingElementsCount : nat;
  capability : Promise (list T)
}.

(** Settling a promise that is already settled does nothing. *)
Definition settle_with (new cur : Promise (list T)) : Promise (list T) :=
  match cur with
  | Pending => new
  | _ => cur
  end.

Definition all_start (n : nat) : AllState :=
  {| values := replicate n None;
     remainingElementsCount := n;
     capability := if Nat.eqb n 0 then Fulfilled [] else Pending |}.

(** The resolve element function of slot [index]. *)
Definition resolve_element (index : nat) (x : T) (st : AllState) : AllState :=
  match values st !! index with
  | Some None =>
      let values' := <[index := Some x]> (values st) in
      let remaining' := pred (remainingElementsCount st) in
      {| values := values';
         remainingElementsCount := remaining';
         capability :=
           if Nat.eqb remaining' 0
           then settle_with (Fulfilled (omap id values')) (capability st)
           else capability st |}
  | _ => st
  end.

Definition reject_all (reason : Thrown) (st : AllState) : AllState :=
  {| values := values st;
     remainingElementsCount := remainingElementsCount st;
     capability := settle_with (Rejected reason) (capability st) |}.

(** Element [index] settles and its reaction runs. *)
Definition deliver (elements : list (Promise T)) (st : AllState) (index : nat)
  : AllState :=
  match elements !! index with
  | Some (Fulfilled x) => resolve_element index x st
  | Some (Rejected e) => reject_all e st
  | Some Pending | None => st
  end.

(** [Promise.all(elements)] after the settlements of the elements named in
    [schedule] have been delivered to it, in that order.  An element whose
    final state is [Pending] never settles.  Any order is accepted here; the
    orders that a run of the pipeline produces are given by [deliveries]
    below. *)
Definition Promise_all (elements : list (Promise T)) (schedule : list nat)
  : Promise (list T) :=
  capability (foldl (deliver elements) (all_start (length elements)) schedule).

(** The reason carried by the first element of the schedule that rejects. *)
Fixpoint first_rejection (elements : list (Promise T)) (schedule : list nat)
  : option Thrown :=
  match schedule with
  | [] => None
  | i :: rest =>
      match elements !! i with
      | Some (Rejected e) => Some e
      | _ => first_rejection elements rest
      end
  end.

End PromiseAll.
Arguments AllState T : clear implicits.

(** ** The generative service, seen from the pipeline *)

(** The part of a [generateImages] response that the pipeline reads; every
    field is optional in the SDK's types. *)
Record Image : Type := { imageBytes : option string }.
Record GeneratedImage : Type := { image : option Image }.
Record GenerateImagesResponse : Type :=
  { generatedImages : option (list GeneratedImage) }.

(** One invocation's view of the outside world: whether constructing the
    client throws, how the text request settles (with [textResponse.text]),
    and how the image request issued for the idea at a given position, with
    a given prompt, settles. *)
Record Service : Type := {
  newGoogleGenAI : Thrown + unit;
  generateContent : Promise (option string);
  generateImages : nat -> Value -> Promise GenerateImagesResponse
}.

(** ** [fetchInnovations]: the body of the [try] block *)

Record InnovationWithImage : Type := {
  title : Value;
  description : Value;
  imageUrl : string
}.

Definition lift {A : Type} (r : Thrown + A) : Promise A :=
  match r with
  | inl e => Rejected e
  | inr v => Fulfilled v
  end.

#[global] Instance Promise_bind : MBind Promise := fun A B k p => bind p k.
#[global] Instance Promise_ret : MRet Promise := fun A v => Fulfilled v.

(** [JSON.parse(textResponse.text)]. *)
Definition parse_text (text : option string) : Thrown + JSON :=
  match JSON_parse (ToString text) with
  | Some v => inr v
  | None => inl SyntaxError
  end.

(** [imageResponse.generatedImages[0].image.imageBytes]. *)
Definition first_image_bytes (r : GenerateImagesResponse)
  : Thrown + option string :=
  match generatedImages r with
  | None => inl TypeError
  | Some imgs =>
      match imgs !! 0 with
      | None => inl TypeError
      | Some g =>
          match image g with
          | None => inl TypeError
          | Some img => inr (imageBytes img)
          end
      end
  end.

(** The [async (idea) => ...] callback, for the idea at position [index]. *)
Definition with_image (ai : Service) (index : nat) (idea : JSON)
  : Promise InnovationWithImage :=
  prompt ← lift (get idea "image_prompt");
  imageResponse ← generateImages ai index prompt;
  base64ImageBytes ← lift (first_image_bytes imageResponse);
  let imageUrl := "data:image/jpeg;base64," ++ ToString base64ImageBytes in
  idea_title ← lift (get idea "title");
  idea_description ← lift (get idea "description");
  mret {| title := idea_title;
          description := idea_description;
          imageUrl := imageUrl |}.

(** [innovationIdeas.map(callback)]: only an array has a callable [map]. *)
Definition array_map {B : Type} (v : JSON) (f : nat -> JSON -> B)
  : Thrown + list B :=
  match v with
  | JArray elements => inr (imap f elements)
  | _ => inl TypeError
  end.

(** Lines 30 to 73: the value handed to [setInnovations], or what is thrown
    to the [catch].  [schedule] is the order in which image requests
    settle. *)
Definition fetchInnovations_try (ai : Service) (schedule : list nat)
  : Promise (list InnovationWithImage) :=
  _ ← lift (newGoogleGenAI ai);
  text ← generateContent ai;
  innovationIdeas ← lift (parse_text text);
  promises ← lift (array_map innovationIdeas (with_image ai));
  Promise_all promises schedule.

(** ** The component's state and handlers *)

Record AppState : Type := {
  innovations : list InnovationWithImage;
  loading : bool;
  error : option string;
  selectedInnovation : option InnovationWithImage
}.

Definition setInnovations (v : list InnovationWithImage) (s : AppState) :=
  {| innovations := v; loading := loading s; error := error s;
     selectedInnovation := selectedInnovation s |}.
Definition setLoading (v : bool) (s : AppState) :=
  {| innovations := innovations s; loading := v; error := error s;
     selectedInnovation := selectedInnovation s |}.
Definition setError (v : option string) (s : AppState) :=
  {| innovations := innovations s; loading := loading s; error := v;
     selectedInnovation := selectedInnovation s |}.
Definition setSelectedInnovation (v : option InnovationWithImage) (s : AppState) :=
  {| innovations := innovations s; loading := loading s; error := error s;
     selectedInnovation := v |}.

(** The four [useState] initial values. *)
Definition initial_state : AppState :=
  {| innovations := []; loading := true; error := None;
     selectedInnovation := None |}.

Definition FETCH_ERROR : string :=
  "Failed to fetch innovations from the future. Please try again.".

(** The running page: the committed state, whether the mount effect has run,
    the invocations of [fetchInnovations] that are suspended at an [await]
    (named by the order in which they were started), how many were started,
    and what [console.error] has printed. *)
Record Runtime : Type := {
  ui : AppState;
  mounted : bool;
  inflight : list nat;
  issued : nat;
  console : list Thrown
}.

Definition setState (f : AppState -> AppState) (rt : Runtime) : Runtime :=
  {| ui := f (ui rt); mounted := mounted rt; inflight := inflight rt;
     issued := issued rt; console := console rt |}.

Definition initial : Runtime :=
  {| ui := initial_state; mounted := false; inflight := []; issued := 0;
     console := [] |}.

(** [fetchInnovations()] up to its first [await]. *)
Definition fetchInnovations_call (rt : Runtime) : Runtime :=
  let rt := setState (setLoading true) rt in
  let rt := setState (setError None) rt in
  {| ui := ui rt; mounted := mounted rt;
     inflight := inflight rt ++ [issued rt];
     issued := S (issued rt); console := console rt |}.

(** Invocation [id] resumes after its awaits: the rest of the [try], or the
    [catch], then the [finally].  The updates of one resumption are batched
    into one commit. *)
Definition fetchInnovations_resume (id : nat)
    (outcome : Promise (list InnovationWithImage)) (rt : Runtime) : Runtime :=
  match outcome with
  | Pending => rt
  | Fulfilled innovationsWithImages =>
      let rt := setState (setInnovations innovationsWithImages) rt in
      let rt := setState (setLoading false) rt in
      {| ui := ui rt; mounted := mounted rt;
         inflight := filter (fun j => j ≠ id) (inflight rt);
         issued := issued rt; console := console rt |}
  | Rejected err =>
      let rt := setState (setError (Some FETCH_ERROR)) rt in
      let rt := setState (setLoading false) rt in
      {| ui := ui rt; mounted := mounted rt;
         inflight := filter (fun j => j ≠ id) (inflight rt);
         issued := issued rt; console := console rt ++ [err] |}
  end.

Definition handleRegenerate (rt : Runtime) : Runtime :=
  fetchInnovations_call (setState (setInnovations []) rt).

Definition handleOpenModal (innovation : InnovationWithImage) (rt : Runtime)
  : Runtime :=
  setState (setSelectedInnovation (Some innovation)) rt.

Definition handleCloseModal (rt : Runtime) : Runtime :=
  setState (setSelectedInnovation None) rt.

(** ** What is rendered, and the events it can deliver *)

(** Truthiness of [error] in [error ? ... : ...]. *)
Definition truthy (e : option string) : bool :=
  match e with
  | Some s => negb (String.eqb s "")
  | None => false
  end.

(** The regenerate button carries [disabled={loading}]. *)
Definition regenerate_disabled (s : AppState) : bool := loading s.

(** The grid of cards is the last branch of [loading ? ... : error ? ...]. *)
Definition grid_rendered (s : AppState) : bool :=
  negb (loading s) && negb (truthy (error s)).

(** [selectedInnovation && <Modal ... />]. *)
Definition modal_rendered (s : AppState) : bool :=
  match selectedInnovation s with Some _ => true | None => false end.

(** The card's [onKeyDown]. *)
Definition card_onKeyDown (key : string) (item : InnovationWithImage)
    (rt : Runtime) : Runtime :=
  if String.eqb key "Enter" || String.eqb key " "
  then handleOpenModal item rt else rt.

(** The modal's [keydown] listener on [window]. *)
Definition handleKeyDown (key : string) (rt : Runtime) : Runtime :=
  if String.eqb key "Escape" then handleCloseModal rt else rt.

Inductive Event : Type :=
  | Mounted
  | RegenerateClick
  | CardClick (index : nat)
  | CardKeyDown (index : nat) (key : string)
  | WindowKeyDown (key : string)
  | OverlayClick
  | ModalContentClick
  | CloseButtonClick
  | Settled (id : nat) (ai : Service) (schedule : list nat).

(** One event handled to completion; [None] when the page cannot receive the
    event in this state (the element is not rendered or is disabled, the
    effect has already run, the invocation is not suspended or its awaits
    have not all settled).  [step] gives what the handlers do to the state;
    it does not ask whether React could commit the tree, nor whether the
    order of settlement is one the pipeline produces: [shown] below keeps
    the runs for which both hold. *)
Definition step (rt : Runtime) (ev : Event) : option Runtime :=
  match ev with
  | Mounted =>
      if mounted rt then None
      else Some (fetchInnovations_call
                   {| ui := ui rt; mounted := true; inflight := inflight rt;
                      issued := issued rt; console := console rt |})
  | RegenerateClick =>
      if regenerate_disabled (ui rt) then None else Some (handleRegenerate rt)
  | CardClick index =>
      if grid_rendered (ui rt) then
        item ← innovations (ui rt) !! index;
        Some (handleOpenModal item rt)
      else None
  | CardKeyDown index key =>
      if grid_rendered (ui rt) then
        item ← innovations (ui rt) !! index;
        let rt' := card_onKeyDown key item rt in
        Some (if modal_rendered (ui rt) then handleKeyDown key rt' else rt')
      else None
  | WindowKeyDown key =>
      Some (if modal_rendered (ui rt) then handleKeyDown key rt else rt)
  | OverlayClick =>
      if modal_rendered (ui rt) then Some (handleCloseModal rt) else None
  | ModalContentClick =>
      if modal_rendered (ui rt) then Some rt else None
  | CloseButtonClick =>
      if modal_rendered (ui rt) then Some (handleCloseModal rt) else None
  | Settled id ai schedule =>
      if bool_decide (id ∈ inflight rt) && settled (fetchInnovations_try ai schedule)
      then Some (fetchInnovations_resume id (fetchInnovations_try ai schedule) rt)
      else None
  end.

(** The states the page can be in: from the initial render, by events. *)
Inductive reachable : Runtime -> Prop :=
  | reachable_initial : reachable initial
  | reachable_step rt ev rt' :
      reachable rt -> step rt ev = Some rt' -> reachable rt'.

(** A larger set of states: those reached when [handleRegenerate] may also
    be called without going through the button.  The page never does so
    (the button is the only caller and it carries [disabled={loading}]);
    the relation serves to state what does not depend on that gate. *)
Inductive reachable_by_calls : Runtime -> Prop :=
  | by_calls_initial : reachable_by_calls initial
  | by_calls_step rt ev rt' :
      reachable_by_calls rt -> step rt ev = Some rt' -> reachable_by_calls rt'
  | by_calls_regenerate rt :
      reachable_by_calls rt -> reachable_by_calls (handleRegenerate rt).

(** ** The response schema, and classes of events *)

(** The [responseSchema] of the text request (lines 38 to 49): an array of
    objects, each with string-valued [title], [description] and
    [image_prompt]. *)
Definition is_string (v : Value) : bool :=
  match v with Some (JString _) => true | _ => false end.

Definition conforms_item (v : JSON) : bool :=
  match v with
  | JObject members =>
      is_string (own_property members "title")
      && is_string (own_property members "description")
      && is_string (own_property members "image_prompt")
  | _ => false
  end.

Definition conforms (v : JSON) : bool :=
  match v with
  | JArray elements => forallb conforms_item elements
  | _ => false
  end.

Definition is_array (v : JSON) : bool :=
  match v with JArray _ => true | _ => false end.

(** Activating the card at [index]: a click, or Enter or Space on it. *)
Definition opens (ev : Event) (index : nat) : Prop :=
  ev = CardClick index \/ ev = CardKeyDown index "Enter"
  \/ ev = CardKeyDown index " ".

(** The Escape key, wherever the focus is. *)
Definition escape_key (ev : Event) : Prop :=
  ev = WindowKeyDown "Escape" \/ exists index, ev = CardKeyDown index "Escape".

Definition closes (ev : Event) : Prop :=
  ev = OverlayClick \/ ev = CloseButtonClick \/ escape_key ev.

(** ** Invariants *)

(** Slots of a join that no element has filled yet. *)
Fixpoint open_slots {T : Type} (vs : list (option T)) : nat :=
  match vs with
  | [] => 0
  | None :: rest => S (open_slots rest)
  | Some _ :: rest => open_slots rest
  end.

(** What holds of the record of [Promise.all(elements)] after any number of
    deliveries. *)
Record all_inv {T : Type} (elements : list (Promise T)) (st : AllState T)
  : Prop := {
  inv_slots : forall i x,
    values st !! i = Some (Some x) -> elements !! i = Some (Fulfilled x);
  inv_length : length (values st) = length elements;
  inv_count : remainingElementsCount st = open_slots (values st);
  inv_fulfilled : forall xs,
    capability st = Fulfilled xs -> values st = Some <$> xs;
  inv_rejected : forall e,
    capability st = Rejected e -> exists j, elements !! j = Some (Rejected e);
  inv_pending : capability st = Pending -> 0 < remainingElementsCount st
}.

(** What holds of every page reached through the rendered tree. *)
Record page_inv (rt : Runtime) : Prop := {
  inv_items :
    innovations (ui rt) ≠ [] -> loading (ui rt) = false /\ error (ui rt) = None;
  inv_idle : loading (ui rt) = false -> inflight rt = [];
  inv_unmounted : mounted rt = false -> inflight rt = [] /\ loading (ui rt) = true;
  inv_single : forall id, id ∈ inflight rt ->
    inflight rt = [id] /\ error (ui rt) = None /\ innovations (ui rt) = []
}.

(** ** Service answers and pages used to exercise the statements *)

Definition member (key value : string) : string := q key ++ ":" ++ q value.

(** A text answer with one idea that has all three fields. *)
Definition one_idea : string :=
  "[{" ++ member "title" "Sky Farm" ++ ","
       ++ member "description" "Crops in orbit." ++ ","
       ++ member "image_prompt" "an orbital farm" ++ "}]".

(** The same idea without its [title]. *)
Definition untitled_idea : string :=
  "[{" ++ member "description" "Crops in orbit." ++ ","
       ++ member "image_prompt" "an orbital farm" ++ "}]".

(** Two ideas, and what they parse to. *)
Definition two_ideas : string :=
  "[{" ++ member "title" "Sky Farm" ++ ","
       ++ member "description" "Crops in orbit." ++ ","
       ++ member "image_prompt" "an orbital farm" ++ "},{"
       ++ member "title" "Tide Grid" ++ ","
       ++ member "description" "Power from the moon." ++ ","
       ++ member "image_prompt" "a tidal power grid" ++ "}]".

Definition sky_farm_idea : JSON :=
  JObject [("title", JString "Sky Farm");
           ("description", JString "Crops in orbit.");
           ("image_prompt", JString "an orbital farm")].

Definition tide_grid_idea : JSON :=
  JObject [("title", JString "Tide Grid");
           ("description", JString "Power from the moon.");
           ("image_prompt", JString "a tidal power grid")].

Definition jpeg (bytes : string) : GenerateImagesResponse :=
  {| generatedImages := Some [ {| image := Some {| imageBytes := Some bytes |} |} ] |}.

(** Every image request succeeds. *)
Definition all_images : nat -> Value -> Promise GenerateImagesResponse :=
  fun _ _ => Fulfilled (jpeg "/9j/4AAQ").

(** The image request for the idea at position [bad] is refused. *)
Definition images_but (bad : nat) : nat -> Value -> Promise GenerateImagesResponse :=
  fun index _ =>
    if Nat.eqb index bad then Rejected (ServiceError "quota exceeded")
    else Fulfilled (jpeg "/9j/4AAQ").

Definition answering (text : string)
    (images : nat -> Value -> Promise GenerateImagesResponse) : Service :=
  {| newGoogleGenAI := inr ();
     generateContent := Fulfilled (Some text);
     generateImages := images |}.

Definition refusing_second : Service := answering two_ideas (images_but 1).

Definition sky_farm : InnovationWithImage :=
  {| title := Some (JString "Sky Farm");
     description := Some (JString "Crops in orbit.");
     imageUrl := "data:image/jpeg;base64,/9j/4AAQ" |}.

Definition tide_grid : InnovationWithImage :=
  {| title := Some (JString "Tide Grid");
     description := Some (JString "Power from the moon.");
     imageUrl := "data:image/jpeg;base64,/9j/4AAQ" |}.

(** The item built from [untitled_idea]: its [title] is [undefined]. *)
Definition untitled : InnovationWithImage :=
  {| title := None;
     description := Some (JString "Crops in orbit.");
     imageUrl := "data:image/jpeg;base64,/9j/4AAQ" |}.

(** After the mount effect: the first invocation is in flight. *)
Definition loading_page : Runtime :=
  {| ui := initial_state; mounted := true; inflight := [0]; issued := 1;
     console := [] |}.

(** After that invocation fulfilled with one item. *)
Definition loaded_page : Runtime :=
  {| ui := {| innovations := [sky_farm]; loading := false; error := None;
              selectedInnovation := None |};
     mounted := true; inflight := []; issued := 1; console := [] |}.

(** After it fulfilled with no item at all. *)
Definition empty_page : Runtime :=
  {| ui := {| innovations := []; loading := false; error := None;
              selectedInnovation := None |};
     mounted := true; inflight := []; issued := 1; console := [] |}.

(** After it was rejected. *)
Definition failed_page : Runtime :=
  {| ui := {| innovations := []; loading := false;
              error := Some FETCH_ERROR; selectedInnovation := None |};
     mounted := true; inflight := []; issued := 1;
     console := [ServiceError "quota exceeded"] |}.

(** The loaded page with its card opened in the modal. *)
Definition modal_page : Runtime :=
  {| ui := {| innovations := [sky_farm]; loading := false; error := None;
              selectedInnovation := Some sky_farm |};
     mounted := true; inflight := []; issued := 1; console := [] |}.

(** [handleRegenerate] called while the mount invocation is still in flight:
    invocations 0 and 1 are both suspended.  The page cannot get here, the
    button being disabled; this state and the two below are reached only by
    calling the handler directly. *)
Definition racing_page : Runtime := handleRegenerate loading_page.

(** The page once the later invocation has been rejected. *)
Definition later_failed_page : Runtime :=
  {| ui := {| innovations := []; loading := false;
              error := Some FETCH_ERROR; selectedInnovation := None |};
     mounted := true; inflight := [0]; issued := 2;
     console := [ServiceError "quota exceeded"] |}.

(** The page once the earlier invocation has then fulfilled. *)
Definition stale_page : Runtime :=
  {| ui := {| innovations := [sky_farm]; loading := false;
              error := Some FETCH_ERROR; selectedInnovation := None |};
     mounted := true; inflight := []; issued := 2;
     console := [ServiceError "quota exceeded"] |}.

(** ** The rendered tree *)

(** What [App] returns (lines 101 to 133), kept to what depends on the
    state: the button, the one branch of [loading ? ... : error ? ... : ...]
    that is shown, and the modal.  Whether React can commit that tree is
    [commits], and what is then on the screen is [screen]. *)
Record Card : Type := {
  card_item : InnovationWithImage;
  card_index : nat;
  animationDelay : nat
}.

Inductive Body : Type :=
  | Loader
  | ErrorMessage (text : string)
  | Grid (cards : list Card).

Record Page : Type := {
  button_disabled : bool;
  button_label : string;
  body : Body;
  modal : option InnovationWithImage
}.

(** [<InnovationCard key={index} {...item} index={index} ... />]; the delay
    is in milliseconds. *)
Definition InnovationCard (index : nat) (item : InnovationWithImage) : Card :=
  {| card_item := item; card_index := index; animationDelay := index * 100 |}.

Definition App_render (s : AppState) : Page :=
  let grid := Grid (imap InnovationCard (innovations s)) in
  {| button_disabled := loading s;
     button_label :=
       if loading s then "Generating..." else "Generate New Future";
     body :=
       if loading s then Loader
       else match error s with
            | Some message =>
                if String.eqb message "" then grid else ErrorMessage message
            | None => grid
            end;
     modal := selectedInnovation s |}.

(** The items a visitor can see as cards. *)
Definition displayed_items (page : Page) : list InnovationWithImage :=
  match body page with
  | Grid cards => card_item <$> cards
  | Loader | ErrorMessage _ => []
  end.

(** ** The modal's [keydown] listener (lines 166 to 176)

    A listener is a closure: it is named by the order in which it was
    created and it calls the [onClose] it closed over.  The effect has
    [[onClose]] as its dependencies, so it runs when the modal mounts and
    again after a render that passes another [onClose], its cleanup running
    first; the cleanup also runs when the modal unmounts. *)

Module ModalEffect.

Definition Listener : Type := (nat * nat)%type.

Definition onClose_of (l : Listener) : nat := snd l.

(** [window.addEventListener]: a listener already present is not added
    again. *)
Definition addEventListener (l : Listener) (ls : list Listener)
  : list Listener :=
  if bool_decide (l ∈ ls) then ls else (ls ++ [l])%list.

Definition removeEventListener (l : Listener) (ls : list Listener)
  : list Listener :=
  filter (fun l' => l' ≠ l) ls.

Record ModalState : Type := {
  keydown : list Listener;
  created : nat;
  effect : option (nat * Listener)
}.

Definition unmounted : ModalState :=
  {| keydown := []; created := 0; effect := None |}.

(** The effect body: a new [handleKeyDown] closure is registered. *)
Definition run_effect (onClose : nat) (st : ModalState) : ModalState :=
  let handleKeyDown := (created st, onClose) in
  {| keydown := addEventListener handleKeyDown (keydown st);
     created := S (created st);
     effect := Some (onClose, handleKeyDown) |}.

(** The function the effect returned. *)
Definition cleanup (handleKeyDown : Listener) (st : ModalState) : ModalState :=
  {| keydown := removeEventListener handleKeyDown (keydown st);
     created := created st;
     effect := None |}.

Inductive Lifecycle : Type :=
  | Mount (onClose : nat)
  | Rerender (onClose : nat)
  | Unmount.

Definition lifecycle (st : ModalState) (ev : Lifecycle) : option ModalState :=
  match ev, effect st with
  | Mount onClose, None => Some (run_effect onClose st)
  | Rerender onClose, Some (dependency, handleKeyDown) =>
      if Nat.eqb onClose dependency then Some st
      else Some (run_effect onClose (cleanup handleKeyDown st))
  | Unmount, Some (_, handleKeyDown) => Some (cleanup handleKeyDown st)
  | _, _ => None
  end.

Fixpoint lifecycles (st : ModalState) (evs : list Lifecycle) : option ModalState :=
  match evs with
  | [] => Some st
  | ev :: rest =>
      match lifecycle st ev with
      | Some st' => lifecycles st' rest
      | None => None
      end
  end.

(** The [onClose] of the latest render, if the modal is mounted. *)
Definition latest_onClose (evs : list Lifecycle) : option nat :=
  foldl (fun _ ev =>
           match ev with
           | Mount onClose | Rerender onClose => Some onClose
           | Unmount => None
           end) None evs.

End ModalEffect.

(** ** Runs of events *)

Fixpoint run (rt : Runtime) (evs : list Event) : option Runtime :=
  match evs with
  | [] => Some rt
  | ev :: rest =>
      match step rt ev with
      | Some rt' => run rt' rest
      | None => None
      end
  end.

Fixpoint tally (p : Event -> bool) (evs : list Event) : nat :=
  match evs with
  | [] => 0
  | ev :: rest => (if p ev then 1 else 0) + tally p rest
  end.

(** The events whose handler calls [fetchInnovations]. *)
Definition starts_invocation (ev : Event) : bool :=
  match ev with
  | Mounted | RegenerateClick => true
  | _ => false
  end.

Definition settles (ev : Event) : bool :=
  match ev with
  | Settled _ _ _ => true
  | _ => false
  end.

Definition settles_rejected (ev : Event) : bool :=
  match ev with
  | Settled _ ai schedule =>
      match fetchInnovations_try ai schedule with
      | Rejected _ => true
      | _ => false
      end
  | _ => false
  end.

(** ** More service answers *)


(** Every image request is answered, with no image in the answer. *)
Definition images_missing : nat -> Value -> Promise GenerateImagesResponse :=
  fun _ _ => Fulfilled {| generatedImages := Some [] |}.

(** Only the two requests that [two_ideas] gives rise to are answered. *)
Definition images_when_asked
  : nat -> Value -> Promise GenerateImagesResponse :=
  fun index prompt =>
    match prompt with
    | Some (JString text) =>
        if (Nat.eqb index 0 && String.eqb text "an orbital farm")
           || (Nat.eqb index 1 && String.eqb text "a tidal power grid")
        then Fulfilled (jpeg "/9j/4AAQ")
        else Rejected (ServiceError "unexpected request")
    | _ => Rejected (ServiceError "unexpected request")
    end.

(** Each image request is refused, for a reason of its own. *)
Definition images_refused : nat -> Value -> Promise GenerateImagesResponse :=
  fun index _ =>
    if Nat.eqb index 0 then Rejected (ServiceError "quota exceeded")
    else Rejected (ServiceError "unsafe prompt").

(** ** The order in which the join hears of its elements

    The callbacks of [map] all run up to their first [await] before
    [Promise.all] is called.  A callback that throws before that point (its
    idea is [null], so reading [image_prompt] throws) hands [Promise.all] a
    promise that is already rejected: its reaction is queued at once, ahead
    of the reaction of every callback that awaits a request.  So the join
    hears first of those elements, by position, and then of the others in
    the order in which their requests settle. *)

Fixpoint thrown_from (index : nat) (ideas : list JSON) : list nat :=
  match ideas with
  | [] => []
  | idea :: rest =>
      match get idea "image_prompt" with
      | inl _ => index :: thrown_from (S index) rest
      | inr _ => thrown_from (S index) rest
      end
  end.

Definition thrown_at_once (ideas : list JSON) : list nat := thrown_from 0 ideas.

(** The array that [JSON.parse] hands to [map], if it is one. *)
Definition parsed_ideas (ai : Service) : list JSON :=
  match generateContent ai with
  | Fulfilled text =>
      match JSON_parse (ToString text) with
      | Some (JArray ideas) => ideas
      | _ => []
      end
  | _ => []
  end.

(** The schedule of a run in which the image requests settle in [order]. *)
Definition deliveries (ai : Service) (order : list nat) : list nat :=
  (thrown_at_once (parsed_ideas ai) ++ order)%list.

(** ** What React can commit

    [{title}] and [{description}] are children of [h2] and [p] in
    [InnovationCard] (lines 154 and 155) and in [Modal] (lines 184 and 185).
    A string or a number is rendered as text, [undefined], [null] and
    booleans as nothing, an array as its elements; a plain object is not a
    valid child: React throws, and with no error boundary in the tree the
    root is emptied. *)

Fixpoint renderable (v : JSON) : bool :=
  match v with
  | JObject _ => false
  | JArray elements => forallb renderable elements
  | JNull | JBool _ | JNumber _ | JString _ => true
  end.

Definition renderable_child (v : Value) : bool :=
  match v with
  | Some v => renderable v
  | None => true
  end.

Definition item_renders (item : InnovationWithImage) : bool :=
  renderable_child (title item) && renderable_child (description item).

(** The tree holds no child that React refuses. *)
Definition commits (page : Page) : bool :=
  match body page with
  | Grid cards => forallb (fun card => item_renders (card_item card)) cards
  | Loader | ErrorMessage _ => true
  end
  && match modal page with
     | Some item => item_renders item
     | None => true
     end.

(** What is on the screen: the tree [App] returned, or nothing when React
    threw while rendering it. *)
Definition screen (s : AppState) : option Page :=
  if commits (App_render s) then Some (App_render s) else None.

(** An event as a run of the program delivers it: an invocation resumes
    after a schedule that the pipeline produces. *)
Definition of_program (ev : Event) : Prop :=
  match ev with
  | Settled _ ai schedule => exists order, schedule = deliveries ai order
  | _ => True
  end.

(** The pages the program shows: each one was reached through pages that
    React committed, by events of the program, and is committed itself. *)
Inductive shown : Runtime -> Prop :=
  | shown_initial : shown initial
  | shown_step rt ev rt' :
      shown rt -> of_program ev -> step rt ev = Some rt' ->
      commits (App_render (ui rt')) = true ->
      shown rt'.

(** A text answer with two ideas, the first of them [null]. *)
Definition null_then_idea : string :=
  "[null,{" ++ member "title" "Tide Grid" ++ ","
            ++ member "description" "Power from the moon." ++ ","
            ++ member "image_prompt" "a tidal power grid" ++ "}]".

(** A text answer whose only idea has an object for a title. *)
Definition object_titled_idea : string :=
  "[{" ++ q "title" ++ ":{" ++ member "en" "Sky Farm" ++ "},"
       ++ member "description" "Crops in orbit." ++ ","
       ++ member "image_prompt" "an orbital farm" ++ "}]".

Definition object_titled : InnovationWithImage :=
  {| title := Some (JObject [("en", JString "Sky Farm")]);
     description := Some (JString "Crops in orbit.");
     imageUrl := "data:image/jpeg;base64,/9j/4AAQ" |}.

(** The page the state would describe after such an answer: React cannot
    commit it. *)
Definition unrenderable_page : Runtime :=
  {| ui := {| innovations := [object_titled]; loading := false; error := None;
              selectedInnovation := None |};
     mounted := true; inflight := []; issued := 1; console := [] |}.

(** * Properties *)

(** ** [Promise.all] joins by position and fails fast *)

Section PromiseAllFacts.

Context {T : Type}.
Implicit Types (vs : list (option T)) (st : AllState T).

Lemma open_slots_replicate n : open_slots (replicate n (@None T)) = n.
Proof. induction n as [|n IH]; simpl; congruence. Qed.

Lemma open_slots_insert vs i x :
  vs !! i = Some None ->
  open_slots (<[i := Some x]> vs) = pred (open_slots vs).
Proof.
  revert i. induction vs as [|v vs IH]; intros [|i] Hi; simpl in *; try done.
  - by inversion Hi.
  - destruct v as [y|]; simpl; rewrite (IH i Hi); [done|].
    assert (0 < open_slots vs); [|lia].
    clear IH. revert i Hi. induction vs as [|[w|] vs IH']; intros [|i] Hi;
      simpl in *; try done; try lia. eapply IH'; eauto.
Qed.

Lemma open_slots_full vs :
  (forall i, vs !! i ≠ Some None) -> open_slots vs = 0.
Proof.
  induction vs as [|[w|] vs IH]; intros Hfull; simpl; try done.
  - apply IH. intros i. apply (Hfull (S i)).
  - by destruct (Hfull 0).
Qed.

Lemma open_slots_collect vs :
  open_slots vs = 0 -> Some <$> omap id vs = vs.
Proof.
  induction vs as [|[w|] vs IH]; intros H0; simpl in *; try done.
  f_equal. by apply IH.
Qed.

Variable elements : list (Promise T).

Lemma all_inv_start : all_inv elements (all_start (length elements)).
Proof.
  split; simpl.
  - intros i x Hi. apply lookup_replicate in Hi as [? _]. done.
  - apply length_replicate.
  - by rewrite open_slots_replicate.
  - intros xs. destruct (length elements) eqn:E; simpl; [|done].
    intros [= <-]. done.
  - intros e. by destruct (length elements).
  - destruct (length elements); simpl; [done|lia].
Qed.

Lemma all_inv_resolve st i x :
  all_inv elements st -> elements !! i = Some (Fulfilled x) ->
  all_inv elements (resolve_element i x st).
Proof.
  intros [Hs Hl Hc Hf Hr Hp] Hi. unfold resolve_element.
  destruct (values st !! i) as [[y|]|] eqn:Hslot; try by split.
  assert (Hcount : pred (remainingElementsCount st)
                   = open_slots (<[i:=Some x]> (values st))).
  { by rewrite open_slots_insert, Hc. }
  split; simpl.
  - intros j z Hj. destruct (decide (i = j)) as [->|Hne].
    + rewrite list_lookup_insert_eq in Hj by (by eapply lookup_lt_Some).
      by inversion Hj; subst.
    + rewrite list_lookup_insert_ne in Hj by done. eauto.
  - by rewrite length_insert.
  - done.
  - intros xs. destruct (Nat.eqb_spec (pred (remainingElementsCount st)) 0)
      as [H0|H0].
    + destruct (capability st) eqn:Hcap; simpl.
      * intros [= <-]. symmetry. apply open_slots_collect. congruence.
      * intros [= <-]. specialize (Hf _ eq_refl).
        rewrite Hf, list_lookup_fmap in Hslot.
        by destruct (v !! i).
      * done.
    + intros Hcap. specialize (Hf _ Hcap).
      rewrite Hf, list_lookup_fmap in Hslot. by destruct (xs !! i).
  - intros e. destruct (Nat.eqb (pred (remainingElementsCount st)) 0);
      [|by auto].
    destruct (capability st) eqn:Hcap; simpl; try done. intros [= <-]. eauto.
  - destruct (Nat.eqb_spec (pred (remainingElementsCount st)) 0) as [H0|H0].
    + by destruct (capability st).
    + lia.
Qed.

Lemma all_inv_deliver st i :
  all_inv elements st -> all_inv elements (deliver elements st i).
Proof.
  intros Hinv. unfold deliver.
  destruct (elements !! i) as [[|x|e]|] eqn:Hi; try done.
  - by apply all_inv_resolve.
  - destruct Hinv as [Hs Hl Hc Hf Hr Hp]. split; simpl; try done.
    + intros xs. destruct (capability st); simpl; try done; eauto.
    + intros e'. destruct (capability st) eqn:Hcap; simpl; try done; eauto.
      intros [= <-]. eauto.
    + by destruct (capability st).
Qed.

Lemma all_inv_run st schedule :
  all_inv elements st -> all_inv elements (foldl (deliver elements) st schedule).
Proof.
  revert st. induction schedule as [|i rest IH]; intros st Hinv; simpl;
    [done|]. by apply IH, all_inv_deliver.
Qed.

(** A fulfilled join holds, slot by slot, what its elements fulfilled
    with. *)
Lemma all_inv_joined st xs :
  all_inv elements st -> capability st = Fulfilled xs -> elements = Fulfilled <$> xs.
Proof.
  intros [Hs Hl Hc Hf Hr Hp] Hcap. specialize (Hf _ Hcap).
  apply list_eq. intros i. rewrite list_lookup_fmap.
  destruct (xs !! i) as [x|] eqn:Hx; simpl.
  - apply Hs. by rewrite Hf, list_lookup_fmap, Hx.
  - apply lookup_ge_None. apply lookup_ge_None in Hx.
    rewrite <- Hl, Hf, length_fmap. done.
Qed.

Lemma Promise_all_fulfilled schedule xs :
  Promise_all elements schedule = Fulfilled xs -> elements = Fulfilled <$> xs.
Proof.
  unfold Promise_all. apply all_inv_joined, all_inv_run, all_inv_start.
Qed.

(** Once settled, the join keeps its settlement. *)
Lemma deliver_settled st i :
  capability st ≠ Pending ->
  capability (deliver elements st i) = capability st.
Proof.
  intros Hset. unfold deliver, resolve_element, reject_all.
  destruct (elements !! i) as [[|x|e]|]; try done; simpl.
  - destruct (values st !! i) as [[y|]|]; try done; simpl.
    destruct (Nat.eqb _ 0); [|done]. by destruct (capability st).
  - by destruct (capability st).
Qed.

Lemma run_settled st schedule :
  capability st ≠ Pending ->
  capability (foldl (deliver elements) st schedule) = capability st.
Proof.
  revert st. induction schedule as [|i rest IH]; intros st Hset; simpl;
    [done|].
  rewrite IH; rewrite deliver_settled; done.
Qed.

Lemma first_rejection_element schedule e :
  first_rejection elements schedule = Some e ->
  exists j, j ∈ schedule /\ elements !! j = Some (Rejected e).
Proof.
  induction schedule as [|i rest IH]; simpl; [done|].
  destruct (elements !! i) as [[|x|e']|] eqn:Hi.
  - intros H. destruct (IH H) as (j & ? & ?). exists j. split; [by right|done].
  - intros H. destruct (IH H) as (j & ? & ?). exists j. split; [by right|done].
  - intros [= <-]. exists i. split; [by left|done].
  - intros H. destruct (IH H) as (j & ? & ?). exists j. split; [by right|done].
Qed.

Lemma first_rejection_exists schedule j e :
  j ∈ schedule -> elements !! j = Some (Rejected e) ->
  exists e', first_rejection elements schedule = Some e'.
Proof.
  induction schedule as [|i rest IH]; intros Hin Hj; [by inversion Hin|].
  simpl. destruct (elements !! i) as [[|x|e']|] eqn:Hi; eauto;
    (inversion Hin; subst; [congruence|eauto]).
Qed.

Lemma run_first_rejection st schedule e :
  all_inv elements st -> capability st = Pending ->
  first_rejection elements schedule = Some e ->
  capability (foldl (deliver elements) st schedule) = Rejected e.
Proof.
  revert st. induction schedule as [|i rest IH]; intros st Hinv Hpend Hfirst;
    [done|].
  simpl in *. pose proof (all_inv_deliver st i Hinv) as Hinv'.
  unfold deliver in *.
  destruct (elements !! i) as [[|x|e']|] eqn:Hi.
  - by apply IH.
  - destruct (capability (resolve_element i x st)) eqn:Hcap.
    + by apply IH.
    + exfalso. pose proof (all_inv_joined _ _ Hinv' Hcap) as Hall.
      destruct (first_rejection_element _ _ Hfirst) as (j & _ & Hj).
      rewrite Hall, list_lookup_fmap in Hj. by destruct (v !! j).
    + exfalso. revert Hcap. unfold resolve_element.
      destruct (values st !! i) as [[y|]|]; simpl; try congruence.
      destruct (Nat.eqb _ 0); rewrite Hpend; done.
  - injection Hfirst as <-. rewrite run_settled; simpl; rewrite Hpend; done.
  - by apply IH.
Qed.

Lemma run_no_rejection st schedule e :
  capability st = Pending ->
  first_rejection elements schedule = None ->
  capability (foldl (deliver elements) st schedule) ≠ Rejected e.
Proof.
  revert st. induction schedule as [|i rest IH]; intros st Hpend Hfirst;
    simpl in *; [congruence|].
  unfold deliver. destruct (elements !! i) as [[|x|e']|] eqn:Hi; try done;
    try by apply IH.
  destruct (capability (resolve_element i x st)) eqn:Hcap.
  - by apply IH.
  - rewrite run_settled; congruence.
  - exfalso. revert Hcap. unfold resolve_element.
    destruct (values st !! i) as [[y|]|]; simpl; try congruence.
    destruct (Nat.eqb _ 0); rewrite Hpend; done.
Qed.

(** The join rejects exactly with the reason of the first element that
    rejects. *)
Lemma Promise_all_rejected schedule e :
  Promise_all elements schedule = Rejected e <->
  first_rejection elements schedule = Some e.
Proof.
  unfold Promise_all. split.
  - intros Hrej. destruct (first_rejection elements schedule) as [e'|] eqn:Hf.
    + destruct (decide (length elements = 0)) as [H0|H0].
      * apply first_rejection_element in Hf as (j & _ & Hj).
        apply lookup_lt_Some in Hj. lia.
      * erewrite run_first_rejection in Hrej; eauto using all_inv_start.
        -- congruence.
        -- simpl. by destruct (length elements).
    + exfalso. destruct (decide (length elements = 0)) as [H0|H0].
      * rewrite run_settled in Hrej; simpl in *; rewrite H0 in *; done.
      * eapply run_no_rejection; eauto. simpl. by destruct (length elements).
  - intros Hf. apply run_first_rejection; auto using all_inv_start.
    simpl. destruct (length elements) eqn:E; [|done].
    apply first_rejection_element in Hf as (j & _ & Hj).
    apply lookup_lt_Some in Hj. lia.
Qed.

Lemma run_all_delivered st schedule :
  all_inv elements st ->
  (forall i, values st !! i = Some None -> i ∈ schedule) ->
  (forall i, i < length elements -> exists x, elements !! i = Some (Fulfilled x)) ->
  capability (foldl (deliver elements) st schedule) ≠ Pending.
Proof.
  revert st. induction schedule as [|i rest IH]; intros st Hinv Hopen Hall.
  - simpl. intros Hpend. destruct Hinv as [Hs Hl Hc Hf Hr Hp].
    specialize (Hp Hpend). rewrite Hc, open_slots_full in Hp; [lia|].
    intros i Hi. specialize (Hopen i Hi). inversion Hopen.
  - simpl. apply IH; [by apply all_inv_deliver| |done].
    intros j Hj. destruct (decide (i = j)) as [->|Hne].
    + exfalso. destruct (Hall j) as [x Hx].
      { rewrite <- (inv_length _ _ (all_inv_deliver st j Hinv)).
        by eapply lookup_lt_Some. }
      unfold deliver, resolve_element in Hj. rewrite Hx in Hj.
      destruct (values st !! j) as [[y|]|] eqn:Hslot;
        simpl in Hj; try congruence.
      rewrite list_lookup_insert_eq in Hj by (by eapply lookup_lt_Some).
      done.
    + assert (values st !! j = Some None) as Hj'.
      { unfold deliver, resolve_element in Hj.
        destruct (elements !! i) as [[|x|e]|]; try done.
        destruct (values st !! i) as [[y|]|]; simpl in Hj; try done.
        by rewrite list_lookup_insert_ne in Hj. }
      specialize (Hopen j Hj'). inversion Hopen; subst; done.
Qed.

(** When every element fulfils and every element's settlement has been
    delivered, in whatever order, the join fulfils with the values in
    element order. *)
Lemma Promise_all_complete schedule xs :
  elements = Fulfilled <$> xs ->
  (forall i, i < length xs -> i ∈ schedule) ->
  Promise_all elements schedule = Fulfilled xs.
Proof.
  intros Hel Hsched.
  assert (Hall : forall i, i < length elements ->
                           exists x, elements !! i = Some (Fulfilled x)).
  { intros i Hi. rewrite Hel, length_fmap in Hi.
    destruct (lookup_lt_is_Some_2 xs i Hi) as [x Hx]. exists x.
    by rewrite Hel, list_lookup_fmap, Hx. }
  destruct (Promise_all elements schedule) as [|ys|e] eqn:Hres.
  - exfalso. revert Hres. apply run_all_delivered; auto using all_inv_start.
    intros i Hi. simpl in Hi. apply lookup_replicate in Hi as [_ Hi].
    apply Hsched. by rewrite Hel, length_fmap in Hi.
  - apply Promise_all_fulfilled in Hres. rewrite Hel in Hres.
    f_equal. symmetry. revert Hres. clear. revert ys.
    induction xs as [|x xs IH]; intros [|y ys]; simpl; try done.
    intros [= -> Hrest]. f_equal. by apply IH.
  - exfalso. apply Promise_all_rejected, first_rejection_element in Hres
      as (j & _ & Hj).
    rewrite Hel, list_lookup_fmap in Hj. by destruct (xs !! j).
Qed.

End PromiseAllFacts.

(** ** The pipeline *)

Lemma try_unfold ai schedule :
  fetchInnovations_try ai schedule =
  match newGoogleGenAI ai with
  | inl e => Rejected e
  | inr _ =>
      match generateContent ai with
      | Pending => Pending
      | Rejected e => Rejected e
      | Fulfilled text =>
          match JSON_parse (ToString text) with
          | None => Rejected SyntaxError
          | Some (JArray ideas) =>
              Promise_all (imap (with_image ai) ideas) schedule
          | Some _ => Rejected TypeError
          end
      end
  end.
Proof.
  unfold fetchInnovations_try, mbind, Promise_bind, bind, parse_text.
  destruct (newGoogleGenAI ai) as [e|[]]; simpl; [done|].
  destruct (generateContent ai) as [|text|e]; simpl; try done.
  destruct (JSON_parse (ToString text)) as [[]|]; done.
Qed.

(** A fulfilled invocation went through every step. *)
Lemma try_fulfilled ai schedule items :
  fetchInnovations_try ai schedule = Fulfilled items ->
  exists text ideas,
    newGoogleGenAI ai = inr () /\
    generateContent ai = Fulfilled text /\
    JSON_parse (ToString text) = Some (JArray ideas) /\
    imap (with_image ai) ideas = Fulfilled <$> items.
Proof.
  rewrite try_unfold.
  destruct (newGoogleGenAI ai) as [e|[]]; [done|].
  destruct (generateContent ai) as [|text|e]; try done.
  destruct (JSON_parse (ToString text)) as [[| | | |ideas|]|] eqn:Hparse;
    try done.
  intros H. exists text, ideas. repeat split; try done.
  by apply Promise_all_fulfilled in H.
Qed.

(** What the callback's promise fulfils with. *)
Lemma with_image_fulfilled ai index idea item :
  with_image ai index idea = Fulfilled item ->
  get idea "title" = inr (title item) /\
  get idea "description" = inr (description item) /\
  exists prompt response bytes,
    get idea "image_prompt" = inr prompt /\
    generateImages ai index prompt = Fulfilled response /\
    first_image_bytes response = inr bytes /\
    imageUrl item = "data:image/jpeg;base64," ++ ToString bytes.
Proof.
  unfold with_image, mbind, mret, Promise_bind, Promise_ret, bind.
  destruct (get idea "image_prompt") as [e|prompt] eqn:Hp; simpl; [done|].
  destruct (generateImages ai index prompt) as [|response|e] eqn:Hg; try done.
  destruct (first_image_bytes response) as [e|bytes] eqn:Hb; simpl; [done|].
  destruct (get idea "title") as [e|t]; simpl; [done|].
  destruct (get idea "description") as [e|d]; simpl; [done|].
  intros [= <-]; simpl. repeat split. exists prompt, response, bytes. done.
Qed.

(** A rejected image request rejects the callback's promise with the same
    reason. *)
Lemma with_image_rejected ai index idea prompt e :
  get idea "image_prompt" = inr prompt ->
  generateImages ai index prompt = Rejected e ->
  with_image ai index idea = Rejected e.
Proof.
  intros Hp Hg.
  unfold with_image, mbind, Promise_bind, bind. rewrite Hp. simpl.
  by rewrite Hg.
Qed.

(** A [null] element rejects its callback's promise before any request. *)
Lemma with_image_null ai index : with_image ai index JNull = Rejected TypeError.
Proof. reflexivity. Qed.

Lemma step_settled rt id ai schedule rt' :
  step rt (Settled id ai schedule) = Some rt' ->
  id ∈ inflight rt /\
  fetchInnovations_try ai schedule ≠ Pending /\
  rt' = fetchInnovations_resume id (fetchInnovations_try ai schedule) rt.
Proof.
  simpl. destruct (bool_decide (id ∈ inflight rt)) eqn:Hin; simpl; [|done].
  apply bool_decide_eq_true in Hin.
  destruct (fetchInnovations_try ai schedule) eqn:Hf; simpl; try done;
    intros [= <-]; done.
Qed.

(** ** The pipeline on concrete answers *)

Example parse_two_ideas :
  JSON_parse two_ideas = Some (JArray [sky_farm_idea; tide_grid_idea]).
Proof. vm_compute. reflexivity. Qed.

Example try_one_idea :
  fetchInnovations_try (answering one_idea all_images) [0] = Fulfilled [sky_farm].
Proof. vm_compute. reflexivity. Qed.

Example try_two_ideas_late_first :
  fetchInnovations_try (answering two_ideas all_images) [1; 0]
  = Fulfilled [sky_farm; tide_grid].
Proof. vm_compute. reflexivity. Qed.

Example try_two_ideas_waiting :
  fetchInnovations_try (answering two_ideas all_images) [1] = Pending.
Proof. vm_compute. reflexivity. Qed.

Example try_two_ideas_one_refused :
  fetchInnovations_try (answering two_ideas (images_but 1)) [0; 1]
  = Rejected (ServiceError "quota exceeded").
Proof. vm_compute. reflexivity. Qed.

Example try_empty_array :
  fetchInnovations_try (answering "[]" all_images) [] = Fulfilled [].
Proof. vm_compute. reflexivity. Qed.

Example try_not_json :
  fetchInnovations_try (answering "Here are six ideas:" all_images) []
  = Rejected SyntaxError.
Proof. vm_compute. reflexivity. Qed.

Example try_object :
  fetchInnovations_try (answering ("{" ++ member "title" "Sky Farm" ++ "}") all_images) []
  = Rejected TypeError.
Proof. vm_compute. reflexivity. Qed.

Lemma fmap_Fulfilled_inj {T : Type} (xs ys : list T) :
  Fulfilled <$> xs = Fulfilled <$> ys -> xs = ys.
Proof.
  revert ys. induction xs as [|x xs IH]; intros [|y ys]; simpl; try done.
  intros [= -> Hrest]. f_equal. by apply IH.
Qed.

(** ** Count and order of the merged items *)

(** C1. When an invocation succeeds, the list handed to [setInnovations] has
    as many items as [JSON.parse] returned ideas, the item at each position
    carries the [title] and [description] of the idea at that position, and
    the list does not depend on the order in which the image requests
    settled; it is the list the state then holds. *)
Theorem merge_keeps_count_and_order ai schedule items :
  fetchInnovations_try ai schedule = Fulfilled items ->
  exists text ideas,
    generateContent ai = Fulfilled text /\
    JSON_parse (ToString text) = Some (JArray ideas) /\
    length items = length ideas /\
    (forall i idea, ideas !! i = Some idea ->
       exists item, items !! i = Some item /\
         get idea "title" = inr (title item) /\
         get idea "description" = inr (description item)) /\
    (forall schedule' items',
       fetchInnovations_try ai schedule' = Fulfilled items' -> items' = items) /\
    (forall rt id rt',
       step rt (Settled id ai schedule) = Some rt' ->
       innovations (ui rt') = items).
Proof.
  intros Hok.
  destruct (try_fulfilled _ _ _ Hok)
    as (text & ideas & _ & Htext & Hparse & Hmap).
  exists text, ideas. repeat split; try done.
  - apply (f_equal length) in Hmap.
    by rewrite length_imap, length_fmap in Hmap.
  - intros i idea Hi.
    apply (f_equal (fun l => l !! i)) in Hmap.
    rewrite list_lookup_imap, list_lookup_fmap, Hi in Hmap. simpl in Hmap.
    destruct (items !! i) as [item|]; [|done].
    exists item. split; [done|].
    injection Hmap as Hitem.
    destruct (with_image_fulfilled _ _ _ _ Hitem) as (? & ? & _). done.
  - intros schedule' items' Hok'.
    destruct (try_fulfilled _ _ _ Hok')
      as (text' & ideas' & _ & Htext' & Hparse' & Hmap').
    assert (text' = text) as -> by congruence.
    assert (ideas' = ideas) as -> by congruence.
    apply fmap_Fulfilled_inj. congruence.
  - intros rt id rt' Hstep.
    apply step_settled in Hstep as (_ & _ & ->). by rewrite Hok.
Qed.

Lemma merge_keeps_count_and_order_witness :
  fetchInnovations_try (answering two_ideas all_images) [1; 0]
    = Fulfilled [sky_farm; tide_grid] /\
  exists text ideas,
    generateContent (answering two_ideas all_images) = Fulfilled text /\
    JSON_parse (ToString text) = Some (JArray ideas) /\
    length [sky_farm; tide_grid] = length ideas /\
    (forall i idea, ideas !! i = Some idea ->
       exists item, [sky_farm; tide_grid] !! i = Some item /\
         get idea "title" = inr (title item) /\
         get idea "description" = inr (description item)) /\
    (forall schedule' items',
       fetchInnovations_try (answering two_ideas all_images) schedule'
       = Fulfilled items' ->
       items' = [sky_farm; tide_grid]) /\
    (forall rt id rt',
       step rt (Settled id (answering two_ideas all_images) [1; 0]) = Some rt' ->
       innovations (ui rt') = [sky_farm; tide_grid]).
Proof.
  split; [vm_compute; reflexivity|].
  apply (merge_keeps_count_and_order (answering two_ideas all_images) [1; 0]).
  vm_compute; reflexivity.
Defined.

(** ** One failed image request fails the invocation *)

(** C2. When the image request issued for one of the ideas is rejected, the
    invocation never fulfils, whatever the order of settlement; once that
    rejection has been delivered the invocation is rejected, with the reason
    of the first request that failed; and when the invocation resumes, no
    list is stored: [innovations] is left as it was, the rejection reason is
    logged, [error] is the fixed message and [loading] is false. *)
Theorem one_image_failure_fails_all ai schedule text ideas i idea prompt e :
  newGoogleGenAI ai = inr () ->
  generateContent ai = Fulfilled text ->
  JSON_parse (ToString text) = Some (JArray ideas) ->
  ideas !! i = Some idea ->
  get idea "image_prompt" = inr prompt ->
  generateImages ai i prompt = Rejected e ->
  (forall items, fetchInnovations_try ai schedule ≠ Fulfilled items) /\
  (i ∈ schedule ->
     exists e', fetchInnovations_try ai schedule = Rejected e' /\
       first_rejection (imap (with_image ai) ideas) schedule = Some e') /\
  (forall rt id rt',
     step rt (Settled id ai schedule) = Some rt' ->
     exists e', fetchInnovations_try ai schedule = Rejected e' /\
       innovations (ui rt') = innovations (ui rt) /\
       error (ui rt') = Some FETCH_ERROR /\
       loading (ui rt') = false /\
       console rt' = (console rt ++ [e'])%list).
Proof.
  intros Hnew Htext Hparse Hi Hprompt Himage.
  assert (Hel : imap (with_image ai) ideas !! i = Some (Rejected e)).
  { rewrite list_lookup_imap, Hi. simpl.
    by erewrite with_image_rejected. }
  assert (Hnever : forall items, fetchInnovations_try ai schedule ≠ Fulfilled items).
  { intros items Hok.
    destruct (try_fulfilled _ _ _ Hok)
      as (text' & ideas' & _ & Htext' & Hparse' & Hmap).
    assert (text' = text) as -> by congruence.
    assert (ideas' = ideas) as -> by congruence.
    rewrite Hmap, list_lookup_fmap in Hel. by destruct (items !! i). }
  assert (Hf : fetchInnovations_try ai schedule
               = Promise_all (imap (with_image ai) ideas) schedule).
  { by rewrite try_unfold, Hnew, Htext, Hparse. }
  split; [done|]. split.
  - intros Hin.
    destruct (first_rejection_exists _ _ _ _ Hin Hel) as [e' He'].
    exists e'. split; [|done]. rewrite Hf. by apply Promise_all_rejected.
  - intros rt id rt' Hstep.
    apply step_settled in Hstep as (_ & Hset & ->).
    destruct (fetchInnovations_try ai schedule) as [|items|e'] eqn:Hres.
    + done.
    + by destruct (Hnever items).
    + exists e'. done.
Qed.

Lemma one_image_failure_fails_all_witness :
  newGoogleGenAI refusing_second = inr () /\
  generateContent refusing_second = Fulfilled (Some two_ideas) /\
  JSON_parse (ToString (Some two_ideas))
    = Some (JArray [sky_farm_idea; tide_grid_idea]) /\
  [sky_farm_idea; tide_grid_idea] !! 1 = Some tide_grid_idea /\
  get tide_grid_idea "image_prompt" = inr (Some (JString "a tidal power grid")) /\
  generateImages refusing_second 1 (Some (JString "a tidal power grid"))
    = Rejected (ServiceError "quota exceeded") /\
  (forall items, fetchInnovations_try refusing_second [0; 1] ≠ Fulfilled items) /\
  (1 ∈ [0; 1] ->
     exists e', fetchInnovations_try refusing_second [0; 1] = Rejected e' /\
       first_rejection
         (imap (with_image refusing_second) [sky_farm_idea; tide_grid_idea]) [0; 1]
       = Some e') /\
  (forall rt id rt',
     step rt (Settled id refusing_second [0; 1]) = Some rt' ->
     exists e', fetchInnovations_try refusing_second [0; 1] = Rejected e' /\
       innovations (ui rt') = innovations (ui rt) /\
       error (ui rt') = Some FETCH_ERROR /\
       loading (ui rt') = false /\
       console rt' = (console rt ++ [e'])%list).
Proof.
  do 6 (split; [vm_compute; reflexivity|]).
  apply (one_image_failure_fails_all refusing_second [0; 1] (Some two_ideas)
           [sky_farm_idea; tide_grid_idea] 1 tide_grid_idea
           (Some (JString "a tidal power grid"))
           (ServiceError "quota exceeded"));
    vm_compute; reflexivity.
Defined.

(** ** The response schema against what the pipeline checks *)

Lemma get_defined idea key key' v :
  get idea key = inr v -> exists v', get idea key' = inr v'.
Proof. destruct idea; simpl; try done; eauto. Qed.

Lemma all_fulfilled {T : Type} (l : list (Promise T)) :
  (forall i p, l !! i = Some p -> exists x, p = Fulfilled x) ->
  exists xs, l = Fulfilled <$> xs.
Proof.
  induction l as [|p l IH]; intros Hall.
  - by exists [].
  - destruct (Hall 0 p eq_refl) as [x ->].
    destruct IH as [xs ->]; [intros i; apply (Hall (S i))|].
    by exists (x :: xs).
Qed.

(** When the text parses to an array and the image request of every element
    is answered with an image, the invocation fulfils once all requests have
    settled, with one item per element. *)
Lemma try_when_images_succeed ai schedule text ideas :
  newGoogleGenAI ai = inr () ->
  generateContent ai = Fulfilled text ->
  JSON_parse (ToString text) = Some (JArray ideas) ->
  (forall i idea, ideas !! i = Some idea ->
     exists prompt response bytes,
       get idea "image_prompt" = inr prompt /\
       generateImages ai i prompt = Fulfilled response /\
       first_image_bytes response = inr bytes) ->
  (forall i, i < length ideas -> i ∈ schedule) ->
  exists items,
    fetchInnovations_try ai schedule = Fulfilled items /\ length items = length ideas.
Proof.
  intros Hnew Htext Hparse Himages Hsched.
  destruct (all_fulfilled (imap (with_image ai) ideas)) as [items Hitems].
  { intros i p. rewrite list_lookup_imap.
    destruct (ideas !! i) as [idea|] eqn:Hi; simpl; [|done].
    intros [= <-].
    destruct (Himages i idea Hi) as (prompt & response & bytes & Hp & Hg & Hb).
    destruct (get_defined _ _ "title" _ Hp) as [t Ht].
    destruct (get_defined _ _ "description" _ Hp) as [d Hd].
    unfold with_image, mbind, mret, Promise_bind, Promise_ret, bind.
    rewrite Hp; simpl. rewrite Hg, Hb; simpl. rewrite Ht, Hd; simpl. eauto. }
  assert (Hlen : length items = length ideas).
  { apply (f_equal length) in Hitems.
    by rewrite length_imap, length_fmap in Hitems. }
  exists items. split; [|done].
  rewrite try_unfold, Hnew, Htext, Hparse.
  apply Promise_all_complete; [done|]. intros i Hi. apply Hsched. lia.
Qed.

(** An idea without a [title] goes through. *)
Example try_untitled_idea :
  JSON_parse untitled_idea
    = Some (JArray [JObject [("description", JString "Crops in orbit.");
                             ("image_prompt", JString "an orbital farm")]]) /\
  fetchInnovations_try (answering untitled_idea all_images) [0] = Fulfilled [untitled].
Proof. split; vm_compute; reflexivity. Qed.

(** C3, as stated, fails: a text that parses but departs from the schema
    does not always fail the invocation. *)
Lemma schema_violation_is_not_a_failure :
  ~ (forall ai schedule text v,
       newGoogleGenAI ai = inr () ->
       generateContent ai = Fulfilled text ->
       JSON_parse (ToString text) = Some v ->
       conforms v = false ->
       forall items, fetchInnovations_try ai schedule ≠ Fulfilled items).
Proof.
  intros Hclaim.
  apply (Hclaim (answering untitled_idea all_images) [0] (Some untitled_idea)
           (JArray [JObject [("description", JString "Crops in orbit.");
                             ("image_prompt", JString "an orbital farm")]])
           eq_refl eq_refl) with [untitled]; vm_compute; reflexivity.
Qed.

Lemma get_throws idea key e :
  get idea key = inl e -> idea = JNull /\ e = TypeError.
Proof. destruct idea; simpl; try done. by intros [= <-]. Qed.

Lemma thrown_from_head index ideas i :
  ideas !! i = Some JNull ->
  exists k rest,
    thrown_from index ideas = (index + k) :: rest /\ ideas !! k = Some JNull.
Proof.
  revert index i. induction ideas as [|idea ideas IH]; intros index i Hi;
    [done|].
  simpl. destruct (get idea "image_prompt") as [e|prompt] eqn:Hget.
  - apply get_throws in Hget as [-> _].
    exists 0, (thrown_from (S index) ideas). split; [f_equal; lia|done].
  - destruct i as [|i]; simpl in Hi.
    { injection Hi as ->. done. }
    destruct (IH (S index) i Hi) as (k & rest & Hhead & Hk).
    exists (S k), rest. split; [|done]. rewrite Hhead. f_equal. lia.
Qed.

Lemma thrown_from_none index ideas :
  (forall j, ideas !! j ≠ Some JNull) -> thrown_from index ideas = [].
Proof.
  revert index. induction ideas as [|idea ideas IH]; intros index Hnone;
    [done|].
  simpl. destruct (get idea "image_prompt") as [e|prompt] eqn:Hget.
  - apply get_throws in Hget as [-> _]. by destruct (Hnone 0).
  - apply IH. intros j. apply (Hnone (S j)).
Qed.

Lemma parsed_ideas_eq ai text ideas :
  generateContent ai = Fulfilled text ->
  JSON_parse (ToString text) = Some (JArray ideas) ->
  parsed_ideas ai = ideas.
Proof. intros Htext Hparse. unfold parsed_ideas. by rewrite Htext, Hparse. Qed.

(** Without a [null] idea no callback throws before its request, and every
    order of settlement is one the pipeline produces. *)
Lemma deliveries_without_null ai text ideas order :
  generateContent ai = Fulfilled text ->
  JSON_parse (ToString text) = Some (JArray ideas) ->
  (forall j, ideas !! j ≠ Some JNull) ->
  deliveries ai order = order.
Proof.
  intros Htext Hparse Hnone. unfold deliveries, thrown_at_once.
  by rewrite (parsed_ideas_eq ai text ideas), thrown_from_none.
Qed.

(** A [null] idea rejects the join before any request has settled. *)
Lemma try_null_idea ai text ideas i order :
  newGoogleGenAI ai = inr () ->
  generateContent ai = Fulfilled text ->
  JSON_parse (ToString text) = Some (JArray ideas) ->
  ideas !! i = Some JNull ->
  fetchInnovations_try ai (deliveries ai order) = Rejected TypeError.
Proof.
  intros Hnew Htext Hparse Hnull.
  rewrite try_unfold, Hnew, Htext, Hparse. apply Promise_all_rejected.
  unfold deliveries, thrown_at_once.
  rewrite (parsed_ideas_eq ai text ideas) by done.
  destruct (thrown_from_head 0 ideas i Hnull) as (k & rest & -> & Hk).
  simpl. by rewrite list_lookup_imap, Hk.
Qed.

Example try_null_alone :
  fetchInnovations_try (answering "[null]" all_images)
    (deliveries (answering "[null]" all_images) [])
  = Rejected TypeError.
Proof. vm_compute. reflexivity. Qed.

(** C3, as the code has it.  A text that is not JSON fails the invocation
    with a [SyntaxError]; a text that parses to anything but an array fails
    it with a [TypeError]; an array that holds [null] fails it with a
    [TypeError] as well, in every run and before any image request has
    settled.  Nothing else of the schema is checked: whenever the array
    holds no [null] and every image request is answered with an image, the
    invocation fulfils, whatever fields the elements have. *)
Theorem unparsable_or_unmappable_text_fails ai text :
  newGoogleGenAI ai = inr () ->
  generateContent ai = Fulfilled text ->
  (JSON_parse (ToString text) = None ->
     forall schedule, fetchInnovations_try ai schedule = Rejected SyntaxError) /\
  (forall v, JSON_parse (ToString text) = Some v -> is_array v = false ->
     forall schedule, fetchInnovations_try ai schedule = Rejected TypeError) /\
  (forall ideas i, JSON_parse (ToString text) = Some (JArray ideas) ->
     ideas !! i = Some JNull ->
     (forall order,
        fetchInnovations_try ai (deliveries ai order) = Rejected TypeError) /\
     (forall order rt id, id ∈ inflight rt ->
        exists rt',
          step rt (Settled id ai (deliveries ai order)) = Some rt' /\
          error (ui rt') = Some FETCH_ERROR /\
          loading (ui rt') = false /\
          innovations (ui rt') = innovations (ui rt)) /\
     (forall schedule items,
        fetchInnovations_try ai schedule ≠ Fulfilled items)) /\
  (forall ideas, JSON_parse (ToString text) = Some (JArray ideas) ->
     (forall i idea, ideas !! i = Some idea ->
        idea ≠ JNull /\
        forall prompt, get idea "image_prompt" = inr prompt ->
          exists response bytes,
            generateImages ai i prompt = Fulfilled response /\
            first_image_bytes response = inr bytes) ->
     forall order, (forall i, i < length ideas -> i ∈ order) ->
     deliveries ai order = order /\
     exists items,
       fetchInnovations_try ai order = Fulfilled items /\
       length items = length ideas).
Proof.
  intros Hnew Htext. split; [|split; [|split]].
  - intros Hparse schedule. by rewrite try_unfold, Hnew, Htext, Hparse.
  - intros v Hparse Harr schedule. rewrite try_unfold, Hnew, Htext, Hparse.
    by destruct v.
  - intros ideas i Hparse Hnull. split; [|split].
    + intros order. by eapply try_null_idea.
    + intros order rt id Hin. simpl.
      rewrite (try_null_idea ai text ideas i order) by done.
      rewrite bool_decide_eq_true_2 by done. simpl. eauto.
    + intros schedule items Hok.
      destruct (try_fulfilled _ _ _ Hok)
        as (text' & ideas' & _ & Htext' & Hparse' & Hmap).
      assert (text' = text) as -> by congruence.
      assert (ideas' = ideas) as -> by congruence.
      apply (f_equal (fun l => l !! i)) in Hmap.
      rewrite list_lookup_imap, list_lookup_fmap, Hnull in Hmap.
      simpl in Hmap. by destruct (items !! i).
  - intros ideas Hparse Himages order Hsched. split.
    + eapply deliveries_without_null; eauto.
      intros j Hj. by destruct (Himages j JNull Hj).
    + eapply try_when_images_succeed; eauto.
      intros i idea Hi. destruct (Himages i idea Hi) as [Hnn Himg].
      destruct (get idea "image_prompt") as [e|prompt] eqn:Hp.
      { destruct idea; simpl in Hp; done. }
      destruct (Himg prompt eq_refl) as (response & bytes & ? & ?).
      exists prompt, response, bytes. done.
Qed.

Lemma unparsable_or_unmappable_text_fails_witness :
  newGoogleGenAI (answering null_then_idea all_images) = inr () /\
  generateContent (answering null_then_idea all_images)
    = Fulfilled (Some null_then_idea) /\
  JSON_parse (ToString (Some null_then_idea))
    = Some (JArray [JNull; tide_grid_idea]) /\
  [JNull; tide_grid_idea] !! 0 = Some JNull /\
  (forall order,
     fetchInnovations_try (answering null_then_idea all_images)
       (deliveries (answering null_then_idea all_images) order)
     = Rejected TypeError) /\
  (forall order rt id, id ∈ inflight rt ->
     exists rt',
       step rt (Settled id (answering null_then_idea all_images)
                  (deliveries (answering null_then_idea all_images) order))
       = Some rt' /\
       error (ui rt') = Some FETCH_ERROR /\
       loading (ui rt') = false /\
       innovations (ui rt') = innovations (ui rt)) /\
  (forall schedule items,
     fetchInnovations_try (answering null_then_idea all_images) schedule
     ≠ Fulfilled items).
Proof.
  do 4 (split; [vm_compute; reflexivity|]).
  apply (proj1 (proj2 (proj2
           (unparsable_or_unmappable_text_fails
              (answering null_then_idea all_images) (Some null_then_idea)
              eq_refl eq_refl)))
           [JNull; tide_grid_idea] 0);
    vm_compute; reflexivity.
Defined.

(** ** The error message and the loading flag *)


Example mount_starts_loading : step initial Mounted = Some loading_page.
Proof. reflexivity. Qed.

Example loading_then_loaded :
  step loading_page (Settled 0 (answering one_idea all_images) [0])
  = Some loaded_page.
Proof. vm_compute. reflexivity. Qed.

Example loading_then_failed :
  step loading_page (Settled 0 refusing_second [0; 1]) = Some failed_page.
Proof. vm_compute. reflexivity. Qed.

Example loading_then_empty :
  step loading_page (Settled 0 (answering "[]" all_images) []) = Some empty_page.
Proof. vm_compute. reflexivity. Qed.

Example loaded_then_modal : step loaded_page (CardClick 0) = Some modal_page.
Proof. vm_compute. reflexivity. Qed.


(** ** The state invariant *)

Lemma page_inv_initial : page_inv initial.
Proof. split; simpl; try done. intros id Hin. inversion Hin. Qed.

Lemma page_inv_selection rt f :
  page_inv rt -> page_inv (setState (setSelectedInnovation f) rt).
Proof. intros [H1 H2 H3 H4]. split; simpl; done. Qed.

Lemma page_inv_loading rt :
  page_inv rt -> loading (ui rt) = true -> innovations (ui rt) = [].
Proof.
  intros [Hitems _ _ _] Hload.
  destruct (innovations (ui rt)) eqn:Hi; [done|].
  destruct Hitems as [Hl _]; congruence.
Qed.

Lemma page_inv_resume rt id outcome :
  page_inv rt -> id ∈ inflight rt -> outcome ≠ Pending ->
  page_inv (fetchInnovations_resume id outcome rt).
Proof.
  intros [Hitems Hidle Hunm Hsingle] Hin Hset.
  destruct (Hsingle id Hin) as (Hone & Herr & Hnil).
  assert (Hgone : filter (fun j => j ≠ id) (inflight rt) = []).
  { rewrite Hone. rewrite filter_cons. case_decide; done. }
  assert (Hm : mounted rt = true).
  { destruct (mounted rt) eqn:Hm; [done|].
    destruct (Hunm eq_refl) as [Hno _]. rewrite Hno in Hin. inversion Hin. }
  destruct outcome as [|items|e]; [done| |]; split; simpl;
    rewrite ?Hgone, ?Hm, ?Hnil; try done.
  - intros id' Hid'. inversion Hid'.
  - intros id' Hid'. inversion Hid'.
Qed.

Lemma page_inv_step rt ev rt' :
  page_inv rt -> step rt ev = Some rt' -> page_inv rt'.
Proof.
  intros Hinv Hstep. pose proof Hinv as [Hitems Hidle Hunm Hsingle].
  destruct ev as [| |index|index key|key| | | |id ai schedule]; simpl in Hstep.
  - destruct (mounted rt) eqn:Hm; [done|]. injection Hstep as <-.
    destruct (Hunm eq_refl) as [Hin Hload].
    pose proof (page_inv_loading rt Hinv Hload) as Hnil.
    split; simpl; try done.
    rewrite Hin. simpl. intros id Hid.
    apply list_elem_of_singleton in Hid as ->. done.
  - unfold regenerate_disabled in Hstep.
    destruct (loading (ui rt)) eqn:Hl; [done|]. injection Hstep as <-.
    split; simpl; try done.
    + intros Hm. destruct (Hunm Hm). congruence.
    + rewrite (Hidle eq_refl). simpl.
      intros id Hid. apply list_elem_of_singleton in Hid as ->. done.
  - destruct (grid_rendered (ui rt)); [|done].
    destruct (innovations (ui rt) !! index) as [item|]; [|done].
    injection Hstep as <-. by apply page_inv_selection.
  - destruct (grid_rendered (ui rt)); [|done].
    destruct (innovations (ui rt) !! index) as [item|]; [|done].
    injection Hstep as <-. unfold card_onKeyDown, handleKeyDown.
    destruct (modal_rendered (ui rt)),
      (String.eqb key "Enter" || String.eqb key " "),
      (String.eqb key "Escape");
      repeat apply page_inv_selection; done.
  - injection Hstep as <-. unfold handleKeyDown.
    destruct (modal_rendered (ui rt)), (String.eqb key "Escape");
      repeat apply page_inv_selection; done.
  - destruct (modal_rendered (ui rt)); [|done].
    injection Hstep as <-. by apply page_inv_selection.
  - destruct (modal_rendered (ui rt)); [|done]. by injection Hstep as <-.
  - destruct (modal_rendered (ui rt)); [|done].
    injection Hstep as <-. by apply page_inv_selection.
  - apply (step_settled rt id ai schedule rt') in Hstep as (Hin & Hset & ->).
    by apply page_inv_resume.
Qed.

Lemma reachable_page_inv rt : reachable rt -> page_inv rt.
Proof.
  induction 1 as [|rt ev rt' _ IH Hstep];
    eauto using page_inv_initial, page_inv_step.
Qed.

(** C5. In every state reached from the initial one by the mount effect,
    regenerate clicks, settling invocations, card and modal events,
    [innovations] is non-empty only when [loading] is false and [error] is
    [null]. *)
Theorem items_only_when_loaded rt :
  reachable rt ->
  innovations (ui rt) ≠ [] ->
  loading (ui rt) = false /\ error (ui rt) = None.
Proof. intros Hreach. apply (inv_items rt (reachable_page_inv rt Hreach)). Qed.

Lemma reachable_loading_page : reachable loading_page.
Proof.
  apply (reachable_step initial Mounted); [apply reachable_initial|reflexivity].
Defined.

Lemma reachable_loaded_page : reachable loaded_page.
Proof.
  apply (reachable_step loading_page
           (Settled 0 (answering one_idea all_images) [0]));
    [apply reachable_loading_page|vm_compute; reflexivity].
Defined.

Lemma items_only_when_loaded_witness :
  reachable loaded_page /\
  innovations (ui loaded_page) ≠ [] /\
  loading (ui loaded_page) = false /\ error (ui loaded_page) = None.
Proof.
  split; [apply reachable_loaded_page|].
  split; [discriminate|].
  apply (items_only_when_loaded loaded_page);
    [apply reachable_loaded_page|discriminate].
Defined.

(** ** Opening and closing the modal *)

Lemma resume_keeps_selection id outcome rt :
  selectedInnovation (ui (fetchInnovations_resume id outcome rt))
  = selectedInnovation (ui rt).
Proof. by destruct outcome. Qed.

(** C6. Activating a rendered card sets [selectedInnovation] to that card's
    item; with the modal open, a click on the overlay, a click on the close
    button and the Escape key each set it to [null]; and an event that
    changes [selectedInnovation] is one of these. *)
Theorem selection_follows_open_and_close rt :
  (forall ev index item,
     opens ev index ->
     grid_rendered (ui rt) = true ->
     innovations (ui rt) !! index = Some item ->
     exists rt', step rt ev = Some rt' /\
       selectedInnovation (ui rt') = Some item) /\
  (modal_rendered (ui rt) = true ->
     forall ev, ev = OverlayClick \/ ev = CloseButtonClick
                \/ ev = WindowKeyDown "Escape" ->
     exists rt', step rt ev = Some rt' /\
       selectedInnovation (ui rt') = None) /\
  (forall ev rt',
     step rt ev = Some rt' ->
     selectedInnovation (ui rt') ≠ selectedInnovation (ui rt) ->
     (exists index item,
        opens ev index /\ innovations (ui rt) !! index = Some item /\
        selectedInnovation (ui rt') = Some item) \/
     (closes ev /\ modal_rendered (ui rt) = true /\
      selectedInnovation (ui rt') = None)).
Proof.
  split; [|split].
  - intros ev index item [->|[->| ->]] Hgrid Hitem; simpl;
      rewrite Hgrid, Hitem; simpl.
    + eauto.
    + eexists; split; [done|]. by destruct (modal_rendered (ui rt)).
    + eexists; split; [done|]. by destruct (modal_rendered (ui rt)).
  - intros Hmodal ev [->|[->| ->]]; simpl; rewrite Hmodal; eauto.
  - intros ev rt' Hstep Hchange.
    destruct ev as [| |index|index key|key| | | |id ai schedule];
      simpl in Hstep.
    + destruct (mounted rt); [done|]. injection Hstep as <-. done.
    + destruct (regenerate_disabled (ui rt)); [done|].
      injection Hstep as <-. done.
    + destruct (grid_rendered (ui rt)); [|done].
      destruct (innovations (ui rt) !! index) as [item|] eqn:Hitem; [|done].
      injection Hstep as <-. left. exists index, item.
      split; [by left|done].
    + destruct (grid_rendered (ui rt)); [|done].
      destruct (innovations (ui rt) !! index) as [item|] eqn:Hitem; [|done].
      injection Hstep as <-. simpl in Hchange.
      unfold card_onKeyDown, handleKeyDown in *.
      destruct (String.eqb_spec key "Enter") as [->|HnE]; simpl in *.
      { left. exists index, item. split; [right; by left|].
        split; [done|]. by destruct (modal_rendered (ui rt)). }
      destruct (String.eqb_spec key " ") as [->|HnS]; simpl in *.
      { left. exists index, item. split; [right; by right|].
        split; [done|]. by destruct (modal_rendered (ui rt)). }
      destruct (modal_rendered (ui rt)) eqn:Hmodal; [|done].
      destruct (String.eqb_spec key "Escape") as [->|HnX]; [|done].
      right. split; [|done]. right; right; right. by exists index.
    + injection Hstep as <-. unfold handleKeyDown in *.
      destruct (modal_rendered (ui rt)) eqn:Hmodal; [|done].
      destruct (String.eqb_spec key "Escape") as [->|HnX]; [|done].
      right. split; [|done]. right; right; by left.
    + destruct (modal_rendered (ui rt)) eqn:Hmodal; [|done].
      injection Hstep as <-. right. split; [by left|done].
    + destruct (modal_rendered (ui rt)); [|done]. injection Hstep as <-. done.
    + destruct (modal_rendered (ui rt)) eqn:Hmodal; [|done].
      injection Hstep as <-. right. split; [right; by left|done].
    + apply (step_settled rt id ai schedule rt') in Hstep as (_ & _ & ->).
      by rewrite resume_keeps_selection in Hchange.
Qed.

Lemma selection_follows_open_and_close_witness :
  (opens (CardKeyDown 0 "Enter") 0 /\
   grid_rendered (ui loaded_page) = true /\
   innovations (ui loaded_page) !! 0 = Some sky_farm /\
   exists rt', step loaded_page (CardKeyDown 0 "Enter") = Some rt' /\
     selectedInnovation (ui rt') = Some sky_farm) /\
  (modal_rendered (ui modal_page) = true /\
   exists rt', step modal_page (WindowKeyDown "Escape") = Some rt' /\
     selectedInnovation (ui rt') = None) /\
  (step modal_page OverlayClick = Some loaded_page /\
   selectedInnovation (ui loaded_page) ≠ selectedInnovation (ui modal_page) /\
   closes OverlayClick).
Proof.
  split; [|split].
  - split; [right; left; reflexivity|].
    split; [reflexivity|]. split; [reflexivity|].
    apply (proj1 (selection_follows_open_and_close loaded_page)
             (CardKeyDown 0 "Enter") 0 sky_farm);
      [right; left; reflexivity|reflexivity|reflexivity].
  - split; [reflexivity|].
    apply (proj1 (proj2 (selection_follows_open_and_close modal_page))
             eq_refl (WindowKeyDown "Escape")).
    right; right; reflexivity.
  - split; [reflexivity|]. split; [discriminate|].
    destruct (proj2 (proj2 (selection_follows_open_and_close modal_page))
                OverlayClick loaded_page eq_refl ltac:(discriminate))
      as [(index & item & [H|[H|H]] & _)|(Hcloses & _)];
      [discriminate H|discriminate H|discriminate H|exact Hcloses].
Defined.

(** ** Regenerating *)

(** C7. The regenerate button does nothing while [loading] is true.
    Otherwise a click empties [innovations] and starts a new invocation of
    the whole pipeline: [loading] is true, [error] is [null], and when that
    invocation settles the state holds its items and nothing of the earlier
    list. *)
Theorem regenerate_is_gated_and_starts_clean rt :
  (loading (ui rt) = true -> step rt RegenerateClick = None) /\
  (loading (ui rt) = false ->
     exists rt',
       step rt RegenerateClick = Some rt' /\
       innovations (ui rt') = [] /\
       loading (ui rt') = true /\
       error (ui rt') = None /\
       inflight rt' = (inflight rt ++ [issued rt])%list /\
       forall ai schedule,
         fetchInnovations_try ai schedule ≠ Pending ->
         exists rt'',
           step rt' (Settled (issued rt) ai schedule) = Some rt'' /\
           innovations (ui rt'')
           = match fetchInnovations_try ai schedule with
             | Fulfilled items => items
             | _ => []
             end).
Proof.
  split; intros Hload; simpl; unfold regenerate_disabled; rewrite Hload;
    [done|].
  eexists. split; [done|]. repeat split.
  intros ai schedule Hset. simpl.
  rewrite bool_decide_eq_true_2 by (apply elem_of_app; right; by left).
  destruct (fetchInnovations_try ai schedule) as [|items|e]; [done| |]; simpl; eauto.
Qed.

Lemma regenerate_is_gated_and_starts_clean_witness :
  (loading (ui loading_page) = true /\
   step loading_page RegenerateClick = None) /\
  (loading (ui loaded_page) = false /\
   exists rt',
     step loaded_page RegenerateClick = Some rt' /\
     innovations (ui rt') = [] /\
     loading (ui rt') = true /\
     error (ui rt') = None /\
     inflight rt' = (inflight loaded_page ++ [issued loaded_page])%list /\
     forall ai schedule,
       fetchInnovations_try ai schedule ≠ Pending ->
       exists rt'',
         step rt' (Settled (issued loaded_page) ai schedule) = Some rt'' /\
         innovations (ui rt'')
         = match fetchInnovations_try ai schedule with
           | Fulfilled items => items
           | _ => []
           end).
Proof.
  split.
  - split; [reflexivity|].
    apply (proj1 (regenerate_is_gated_and_starts_clean loading_page)).
    reflexivity.
  - split; [reflexivity|].
    apply (proj2 (regenerate_is_gated_and_starts_clean loaded_page)).
    reflexivity.
Defined.

(** ** Overlapping invocations *)




(** ** No check on the number of ideas *)



(** ** What a failed invocation leaves behind *)

(** C10. Starting an invocation sets [error] to [null] and does not touch
    [innovations]; when the invocation is rejected, [innovations] is still
    what it was when the invocation started, [error] is the fixed message
    and [loading] is false.  The list is empty after a failure because the
    callers pass an empty one: the initial state has none, and
    [handleRegenerate] empties it first. *)
Theorem failure_leaves_items_as_started rt :
  error (ui (fetchInnovations_call rt)) = None /\
  loading (ui (fetchInnovations_call rt)) = true /\
  innovations (ui (fetchInnovations_call rt)) = innovations (ui rt) /\
  (forall ai schedule e rt',
     fetchInnovations_try ai schedule = Rejected e ->
     step (fetchInnovations_call rt) (Settled (issued rt) ai schedule) = Some rt' ->
     innovations (ui rt') = innovations (ui rt) /\
     error (ui rt') = Some FETCH_ERROR /\
     loading (ui rt') = false) /\
  (forall id ai schedule e rt',
     fetchInnovations_try ai schedule = Rejected e ->
     step rt (Settled id ai schedule) = Some rt' ->
     innovations (ui rt') = innovations (ui rt)) /\
  innovations (ui initial) = [] /\
  innovations (ui (handleRegenerate rt)) = [].
Proof.
  do 3 (split; [done|]). split; [|split; [|done]].
  - intros ai schedule e rt' Hrej Hstep.
    apply step_settled in Hstep as (_ & _ & ->). by rewrite Hrej.
  - intros id ai schedule e rt' Hrej Hstep.
    apply step_settled in Hstep as (_ & _ & ->). by rewrite Hrej.
Qed.

Lemma failure_leaves_items_as_started_witness :
  fetchInnovations_try refusing_second [0; 1]
  = Rejected (ServiceError "quota exceeded") /\
  innovations (ui loaded_page) = [sky_farm] /\
  exists rt',
    step (fetchInnovations_call loaded_page)
      (Settled (issued loaded_page) refusing_second [0; 1]) = Some rt' /\
    innovations (ui rt') = [sky_farm] /\
    error (ui rt') = Some FETCH_ERROR /\
    loading (ui rt') = false.
Proof.
  split; [vm_compute; reflexivity|]. split; [reflexivity|].
  eexists. split; [vm_compute; reflexivity|].
  apply (proj1 (proj2 (proj2 (proj2
           (failure_leaves_items_as_started loaded_page))))
           refusing_second [0; 1] (ServiceError "quota exceeded"));
    vm_compute; reflexivity.
Defined.

(** * Further properties of the code *)

(** ** Which image goes with which idea *)

Lemma first_image_bytes_inr response bytes :
  first_image_bytes response = inr bytes ->
  exists g rest img,
    generatedImages response = Some (g :: rest) /\
    image g = Some img /\ imageBytes img = bytes.
Proof.
  unfold first_image_bytes.
  destruct (generatedImages response) as [[|g rest]|] eqn:Hgen; simpl;
    try done.
  destruct (image g) as [img|] eqn:Himg; [|done].
  intros [= <-]. by exists g, rest, img.
Qed.

(** X1. In a fulfilled invocation the item at each position shows the image
    answered to the request made at that position with that idea's own
    [image_prompt]: its [imageUrl] is the JPEG data-URI prefix followed by
    the [imageBytes] of the first generated image of that answer (by the
    text [undefined] when the answer's image has no bytes); further images
    in the answer are not used. *)
Theorem item_image_is_its_own_request ai schedule items text ideas :
  fetchInnovations_try ai schedule = Fulfilled items ->
  generateContent ai = Fulfilled text ->
  JSON_parse (ToString text) = Some (JArray ideas) ->
  forall i idea item,
    ideas !! i = Some idea -> items !! i = Some item ->
    exists prompt response g rest img,
      get idea "image_prompt" = inr prompt /\
      generateImages ai i prompt = Fulfilled response /\
      generatedImages response = Some (g :: rest) /\
      image g = Some img /\
      imageUrl item
      = "data:image/jpeg;base64," ++ ToString (imageBytes img).
Proof.
  intros Hok Htext Hparse i idea item Hidea Hitem.
  destruct (try_fulfilled _ _ _ Hok)
    as (text' & ideas' & _ & Htext' & Hparse' & Hmap).
  assert (text' = text) as -> by congruence.
  assert (ideas' = ideas) as -> by congruence.
  apply (f_equal (fun l => l !! i)) in Hmap.
  rewrite list_lookup_imap, list_lookup_fmap, Hidea, Hitem in Hmap.
  injection Hmap as Hcall.
  destruct (with_image_fulfilled _ _ _ _ Hcall)
    as (_ & _ & prompt & response & bytes & Hp & Hg & Hb & Hurl).
  destruct (first_image_bytes_inr _ _ Hb) as (g & rest & img & Hgen & Himg & <-).
  by exists prompt, response, g, rest, img.
Qed.

Lemma item_image_is_its_own_request_witness :
  fetchInnovations_try (answering two_ideas images_when_asked) [1; 0]
    = Fulfilled [sky_farm; tide_grid] /\
  generateContent (answering two_ideas images_when_asked)
    = Fulfilled (Some two_ideas) /\
  JSON_parse (ToString (Some two_ideas))
    = Some (JArray [sky_farm_idea; tide_grid_idea]) /\
  [sky_farm_idea; tide_grid_idea] !! 1 = Some tide_grid_idea /\
  [sky_farm; tide_grid] !! 1 = Some tide_grid /\
  exists prompt response g rest img,
    get tide_grid_idea "image_prompt" = inr prompt /\
    generateImages (answering two_ideas images_when_asked) 1 prompt
      = Fulfilled response /\
    generatedImages response = Some (g :: rest) /\
    image g = Some img /\
    imageUrl tide_grid
    = "data:image/jpeg;base64," ++ ToString (imageBytes img).
Proof.
  do 5 (split; [vm_compute; reflexivity|]).
  apply (item_image_is_its_own_request
           (answering two_ideas images_when_asked) [1; 0]
           [sky_farm; tide_grid] (Some two_ideas)
           [sky_farm_idea; tide_grid_idea]);
    vm_compute; reflexivity.
Defined.

(** X2. An image request that is answered without a first image (no
    [generatedImages], an empty list, or a first entry without [image])
    rejects its callback with a [TypeError]: the invocation never fulfils,
    and is rejected once that callback's rejection is delivered. *)
Theorem answer_without_image_fails_invocation
    ai schedule text ideas i idea prompt response :
  newGoogleGenAI ai = inr () ->
  generateContent ai = Fulfilled text ->
  JSON_parse (ToString text) = Some (JArray ideas) ->
  ideas !! i = Some idea ->
  get idea "image_prompt" = inr prompt ->
  generateImages ai i prompt = Fulfilled response ->
  (generatedImages response = None \/
   generatedImages response = Some [] \/
   exists g rest, generatedImages response = Some (g :: rest) /\ image g = None) ->
  with_image ai i idea = Rejected TypeError /\
  (forall items, fetchInnovations_try ai schedule ≠ Fulfilled items) /\
  (i ∈ schedule -> exists e, fetchInnovations_try ai schedule = Rejected e).
Proof.
  intros Hnew Htext Hparse Hidea Hprompt Hanswer Hshape.
  assert (Hcall : with_image ai i idea = Rejected TypeError).
  { unfold with_image, mbind, Promise_bind, bind. rewrite Hprompt. simpl.
    rewrite Hanswer. unfold first_image_bytes.
    destruct Hshape as [->|[->|(g & rest & -> & Hg)]]; simpl; try done.
    by rewrite Hg. }
  assert (Hel : imap (with_image ai) ideas !! i = Some (Rejected TypeError)).
  { by rewrite list_lookup_imap, Hidea; simpl; rewrite Hcall. }
  split; [done|]. split.
  - intros items Hok.
    destruct (try_fulfilled _ _ _ Hok)
      as (text' & ideas' & _ & Htext' & Hparse' & Hmap).
    assert (text' = text) as -> by congruence.
    assert (ideas' = ideas) as -> by congruence.
    rewrite Hmap, list_lookup_fmap in Hel. by destruct (items !! i).
  - intros Hin. rewrite try_unfold, Hnew, Htext, Hparse.
    destruct (first_rejection_exists _ _ _ _ Hin Hel) as [e He].
    exists e. by apply Promise_all_rejected.
Qed.

Lemma answer_without_image_fails_invocation_witness :
  newGoogleGenAI (answering one_idea images_missing) = inr () /\
  generateContent (answering one_idea images_missing) = Fulfilled (Some one_idea) /\
  JSON_parse (ToString (Some one_idea)) = Some (JArray [sky_farm_idea]) /\
  [sky_farm_idea] !! 0 = Some sky_farm_idea /\
  get sky_farm_idea "image_prompt" = inr (Some (JString "an orbital farm")) /\
  generateImages (answering one_idea images_missing) 0
    (Some (JString "an orbital farm"))
    = Fulfilled {| generatedImages := Some [] |} /\
  with_image (answering one_idea images_missing) 0 sky_farm_idea
    = Rejected TypeError /\
  (forall items,
     fetchInnovations_try (answering one_idea images_missing) [0]
     ≠ Fulfilled items) /\
  (0 ∈ [0] ->
   exists e,
     fetchInnovations_try (answering one_idea images_missing) [0] = Rejected e).
Proof.
  do 6 (split; [vm_compute; reflexivity|]).
  apply (answer_without_image_fails_invocation
           (answering one_idea images_missing) [0] (Some one_idea)
           [sky_farm_idea] 0 sky_farm_idea (Some (JString "an orbital farm"))
           {| generatedImages := Some [] |});
    try (vm_compute; reflexivity).
  right; left; reflexivity.
Defined.

(** ** What the pipeline asks of the service *)

(** X3. The outcome of an invocation depends on the image service only
    through the requests made for the parsed ideas, each at its own position
    and with its own [image_prompt]: two services that construct alike,
    answer the text request alike and answer those image requests alike give
    the same outcome for every order of settlement.  When constructing the
    client throws or the text request does not fulfil, the image service is
    not consulted at all. *)
Theorem outcome_depends_on_own_requests_only ai ai' schedule :
  newGoogleGenAI ai = newGoogleGenAI ai' ->
  generateContent ai = generateContent ai' ->
  (forall text ideas i idea prompt,
     newGoogleGenAI ai = inr () ->
     generateContent ai = Fulfilled text ->
     JSON_parse (ToString text) = Some (JArray ideas) ->
     ideas !! i = Some idea ->
     get idea "image_prompt" = inr prompt ->
     generateImages ai i prompt = generateImages ai' i prompt) ->
  fetchInnovations_try ai schedule = fetchInnovations_try ai' schedule.
Proof.
  intros Hnew Htext Himages.
  rewrite !try_unfold, <- Hnew, <- Htext.
  destruct (newGoogleGenAI ai) as [e|[]] eqn:Hn; [done|].
  destruct (generateContent ai) as [|text|e] eqn:Ht; try done.
  destruct (JSON_parse (ToString text)) as [[| | | |ideas|]|] eqn:Hp;
    try done.
  f_equal. apply imap_ext. intros i idea Hidea.
  unfold with_image, mbind, Promise_bind, bind.
  destruct (get idea "image_prompt") as [e|prompt] eqn:Hg; simpl; [done|].
  by rewrite (Himages text ideas i idea prompt).
Qed.

Lemma outcome_depends_on_own_requests_only_witness :
  newGoogleGenAI (answering two_ideas all_images)
    = newGoogleGenAI (answering two_ideas images_when_asked) /\
  generateContent (answering two_ideas all_images)
    = generateContent (answering two_ideas images_when_asked) /\
  fetchInnovations_try (answering two_ideas all_images) [1; 0]
    = fetchInnovations_try (answering two_ideas images_when_asked) [1; 0].
Proof.
  do 2 (split; [reflexivity|]).
  apply (outcome_depends_on_own_requests_only
           (answering two_ideas all_images)
           (answering two_ideas images_when_asked) [1; 0]);
    [reflexivity|reflexivity|].
  intros text ideas i idea prompt _ Htext Hparse Hidea Hprompt.
  injection Htext as <-. vm_compute in Hparse. injection Hparse as <-.
  destruct i as [|[|i]]; simpl in Hidea; [| |discriminate Hidea];
    injection Hidea as <-; vm_compute in Hprompt; injection Hprompt as <-;
    reflexivity.
Defined.

(** ** Waiting, and the order of settlement *)




Lemma try_settled_cases ai schedule schedule' :
  fetchInnovations_try ai schedule ≠ Pending ->
  fetchInnovations_try ai schedule' ≠ Pending ->
  (exists items,
     fetchInnovations_try ai schedule = Fulfilled items /\
     fetchInnovations_try ai schedule' = Fulfilled items) \/
  (exists e e',
     fetchInnovations_try ai schedule = Rejected e /\
     fetchInnovations_try ai schedule' = Rejected e').
Proof.
  intros Hset Hset'.
  destruct (fetchInnovations_try ai schedule) as [|items|e] eqn:Hres;
    destruct (fetchInnovations_try ai schedule') as [|items'|e'] eqn:Hres';
    try done.
  - left. exists items. split; [done|]. f_equal.
    destruct (try_fulfilled _ _ _ Hres)
      as (text & ideas & _ & Htext & Hparse & Hmap).
    destruct (try_fulfilled _ _ _ Hres')
      as (text' & ideas' & _ & Htext' & Hparse' & Hmap').
    assert (text' = text) as -> by congruence.
    assert (ideas' = ideas) as -> by congruence.
    apply fmap_Fulfilled_inj. congruence.
  - exfalso.
    destruct (try_fulfilled _ _ _ Hres)
      as (text & ideas & Hnew & Htext & Hparse & Hmap).
    rewrite try_unfold, Hnew, Htext, Hparse in Hres'.
    apply Promise_all_rejected, first_rejection_element in Hres'
      as (j & _ & Hj).
    rewrite Hmap, list_lookup_fmap in Hj. by destruct (items !! j).
  - exfalso.
    destruct (try_fulfilled _ _ _ Hres')
      as (text & ideas & Hnew & Htext & Hparse & Hmap).
    rewrite try_unfold, Hnew, Htext, Hparse in Hres.
    apply Promise_all_rejected, first_rejection_element in Hres
      as (j & _ & Hj).
    rewrite Hmap, list_lookup_fmap in Hj. by destruct (items' !! j).
  - right. by exists e, e'.
Qed.

(** X5. The page an invocation leaves behind does not depend on the order in
    which its image requests settled: for two orders under which it has
    settled, the states after it resumes are equal and the same invocation
    has left the ones in flight.  Only the logged reason can differ, and
    one line is logged under both orders or under neither. *)
Theorem page_after_settling_ignores_order rt id ai schedule schedule' rt1 rt2 :
  step rt (Settled id ai schedule) = Some rt1 ->
  step rt (Settled id ai schedule') = Some rt2 ->
  ui rt1 = ui rt2 /\
  inflight rt1 = inflight rt2 /\
  length (console rt1) = length (console rt2).
Proof.
  intros Hstep1 Hstep2.
  apply step_settled in Hstep1 as (_ & Hset1 & ->).
  apply step_settled in Hstep2 as (_ & Hset2 & ->).
  destruct (try_settled_cases ai schedule schedule' Hset1 Hset2)
    as [(items & -> & ->)|(e & e' & -> & ->)]; simpl; [done|].
  repeat split. by rewrite !length_app.
Qed.

Lemma page_after_settling_ignores_order_witness :
  step loading_page (Settled 0 (answering two_ideas images_refused) [0; 1])
    = Some failed_page /\
  step loading_page (Settled 0 (answering two_ideas images_refused) [1; 0])
    = Some {| ui := ui failed_page; mounted := true; inflight := [];
              issued := 1; console := [ServiceError "unsafe prompt"] |} /\
  ui failed_page = ui failed_page /\
  inflight failed_page = [] /\
  length (console failed_page) = length [ServiceError "unsafe prompt"].
Proof.
  do 2 (split; [vm_compute; reflexivity|]).
  apply (page_after_settling_ignores_order loading_page 0
           (answering two_ideas images_refused) [0; 1] [1; 0] failed_page
           {| ui := ui failed_page; mounted := true; inflight := [];
              issued := 1; console := [ServiceError "unsafe prompt"] |});
    vm_compute; reflexivity.
Defined.

(** ** Invocations along a run of the page *)

Lemma run_page_inv rt evs rt' :
  page_inv rt -> run rt evs = Some rt' -> page_inv rt'.
Proof.
  revert rt. induction evs as [|ev rest IH]; intros rt Hinv; simpl.
  - by intros [= <-].
  - destruct (step rt ev) as [rt1|] eqn:Hstep; [|done].
    apply IH. by eapply page_inv_step.
Qed.

Lemma step_counts rt ev rt' :
  page_inv rt -> step rt ev = Some rt' ->
  issued rt' = issued rt + tally starts_invocation [ev] /\
  length (inflight rt') + tally settles [ev]
  = length (inflight rt) + tally starts_invocation [ev] /\
  length (console rt') = length (console rt) + tally settles_rejected [ev].
Proof.
  intros [_ _ _ Hsingle] Hstep.
  destruct ev as [| |index|index key|key| | | |id ai schedule];
    simpl in Hstep.
  - destruct (mounted rt); [done|]. injection Hstep as <-. simpl.
    rewrite length_app. simpl. lia.
  - destruct (regenerate_disabled (ui rt)); [done|].
    injection Hstep as <-. simpl. rewrite length_app. simpl. lia.
  - destruct (grid_rendered (ui rt)); [|done].
    destruct (innovations (ui rt) !! index); [|done].
    injection Hstep as <-. simpl. lia.
  - destruct (grid_rendered (ui rt)); [|done].
    destruct (innovations (ui rt) !! index); [|done].
    injection Hstep as <-. unfold card_onKeyDown, handleKeyDown.
    destruct (modal_rendered (ui rt)),
      (String.eqb key "Enter" || String.eqb key " "),
      (String.eqb key "Escape"); simpl; lia.
  - injection Hstep as <-. unfold handleKeyDown.
    destruct (modal_rendered (ui rt)), (String.eqb key "Escape"); simpl; lia.
  - destruct (modal_rendered (ui rt)); [|done].
    injection Hstep as <-. simpl. lia.
  - destruct (modal_rendered (ui rt)); [|done].
    injection Hstep as <-. simpl. lia.
  - destruct (modal_rendered (ui rt)); [|done].
    injection Hstep as <-. simpl. lia.
  - apply (step_settled rt id ai schedule rt') in Hstep as (Hin & Hset & ->).
    destruct (Hsingle id Hin) as (Hone & _ & _).
    assert (Hgone : filter (fun j => j ≠ id) (inflight rt) = []).
    { rewrite Hone. rewrite filter_cons. case_decide; done. }
    simpl. destruct (fetchInnovations_try ai schedule) as [|items|e];
      [done| |]; simpl; rewrite Hgone, Hone, ?length_app; simpl; lia.
Qed.

Lemma tally_cons p ev evs : tally p (ev :: evs) = tally p [ev] + tally p evs.
Proof. simpl. lia. Qed.

Lemma run_counts rt evs rt' :
  page_inv rt -> run rt evs = Some rt' ->
  issued rt' = issued rt + tally starts_invocation evs /\
  length (inflight rt') + tally settles evs
  = length (inflight rt) + tally starts_invocation evs /\
  length (console rt') = length (console rt) + tally settles_rejected evs.
Proof.
  revert rt. induction evs as [|ev rest IH]; intros rt Hinv Hrun.
  - injection Hrun as <-. simpl. lia.
  - simpl in Hrun. destruct (step rt ev) as [rt1|] eqn:Hstep; [|done].
    destruct (step_counts _ _ _ Hinv Hstep) as (H1 & H2 & H3).
    destruct (IH rt1 (page_inv_step _ _ _ Hinv Hstep) Hrun) as (I1 & I2 & I3).
    rewrite (tally_cons starts_invocation), (tally_cons settles),
      (tally_cons settles_rejected). lia.
Qed.

(** X6. Nothing but the mount effect and an accepted click on the regenerate
    button starts an invocation; in particular a failed one is not retried.
    Along every run of the page from its initial state, the number of
    invocations started equals the number of those events, each started
    invocation is in flight or has settled exactly once, and
    [console.error] has been called once for each rejected invocation and
    never otherwise. *)
Theorem invocations_are_counted evs rt :
  run initial evs = Some rt ->
  issued rt = tally starts_invocation evs /\
  issued rt = length (inflight rt) + tally settles evs /\
  length (console rt) = tally settles_rejected evs.
Proof.
  intros Hrun.
  destruct (run_counts initial evs rt page_inv_initial Hrun) as (H1 & H2 & H3).
  simpl in *. lia.
Qed.

Lemma invocations_are_counted_witness :
  run initial
    [Mounted; Settled 0 refusing_second [0; 1]; RegenerateClick;
     Settled 1 (answering one_idea all_images) [0]; CardClick 0]
  = Some {| ui := ui modal_page; mounted := true; inflight := []; issued := 2;
            console := [ServiceError "quota exceeded"] |} /\
  2 = tally starts_invocation
        [Mounted; Settled 0 refusing_second [0; 1]; RegenerateClick;
         Settled 1 (answering one_idea all_images) [0]; CardClick 0] /\
  2 = 0 + tally settles
            [Mounted; Settled 0 refusing_second [0; 1]; RegenerateClick;
             Settled 1 (answering one_idea all_images) [0]; CardClick 0] /\
  1 = tally settles_rejected
        [Mounted; Settled 0 refusing_second [0; 1]; RegenerateClick;
         Settled 1 (answering one_idea all_images) [0]; CardClick 0].
Proof.
  split; [vm_compute; reflexivity|].
  apply (invocations_are_counted
           [Mounted; Settled 0 refusing_second [0; 1]; RegenerateClick;
            Settled 1 (answering one_idea all_images) [0]; CardClick 0]
           {| ui := ui modal_page; mounted := true; inflight := [];
              issued := 2; console := [ServiceError "quota exceeded"] |}).
  vm_compute; reflexivity.
Defined.

(** ** The pages the program shows *)

Lemma shown_reachable rt : shown rt -> reachable rt.
Proof.
  induction 1 as [|rt ev rt' _ IH _ Hstep _];
    eauto using reachable_initial, reachable_step.
Qed.

Lemma shown_commits rt : shown rt -> commits (App_render (ui rt)) = true.
Proof. by destruct 1. Qed.

Lemma forallb_cards (f : nat -> InnovationWithImage -> Card) l :
  (forall i item, card_item (f i item) = item) ->
  forallb (fun card => item_renders (card_item card)) (imap f l)
  = forallb item_renders l.
Proof.
  revert f. induction l as [|item l IH]; intros f Hf; simpl; [done|].
  rewrite Hf. f_equal. apply IH. intros i item'. apply Hf.
Qed.

Lemma forallb_false {A : Type} (f : A -> bool) l :
  forallb f l = false -> exists x, x ∈ l /\ f x = false.
Proof.
  induction l as [|x l IH]; simpl; [done|].
  destruct (f x) eqn:Hx; simpl.
  - intros H. destruct (IH H) as (y & Hin & Hy). exists y. split; [by right|done].
  - intros _. exists x. split; [by left|done].
Qed.

Lemma forallb_elem {A : Type} (f : A -> bool) l x :
  forallb f l = true -> x ∈ l -> f x = true.
Proof.
  intros Hall Hin. rewrite forallb_forall in Hall.
  by apply Hall, list_elem_of_In.
Qed.

(** Whether the tree commits, read off the state. *)
Lemma commits_render s :
  commits (App_render s)
  = (if grid_rendered s then forallb item_renders (innovations s) else true)
    && match selectedInnovation s with
       | Some item => item_renders item
       | None => true
       end.
Proof.
  unfold commits, App_render, grid_rendered, truthy. simpl. f_equal.
  destruct (loading s); simpl; [done|].
  destruct (error s) as [message|]; simpl.
  - destruct (String.eqb message ""); simpl; [|done].
    by apply forallb_cards.
  - by apply forallb_cards.
Qed.

(** From a shown page the screen can only go blank when an invocation stores
    an item whose [title] or [description] React cannot render. *)
Lemma blank_only_after_unrenderable rt ev rt' :
  shown rt ->
  step rt ev = Some rt' ->
  commits (App_render (ui rt')) = false ->
  exists id ai schedule items bad,
    ev = Settled id ai schedule /\
    fetchInnovations_try ai schedule = Fulfilled items /\
    bad ∈ items /\ item_renders bad = false.
Proof.
  intros Hshown Hstep Hblank.
  pose proof (shown_commits rt Hshown) as Hok.
  rewrite commits_render in Hok, Hblank.
  apply andb_true_iff in Hok as [Hgrid Hmodal].
  destruct ev as [| |index|index key|key| | | |id ai schedule];
    simpl in Hstep.
  - destruct (mounted rt); [done|]. injection Hstep as <-.
    simpl in Hblank. congruence.
  - destruct (regenerate_disabled (ui rt)); [done|].
    injection Hstep as <-. simpl in Hblank. congruence.
  - destruct (grid_rendered (ui rt)) eqn:Hg; [|done].
    destruct (innovations (ui rt) !! index) as [item|] eqn:Hitem; [|done].
    injection Hstep as <-. exfalso.
    assert (item_renders item = true) as Hitem_ok.
    { eapply forallb_elem; [exact Hgrid|].
      by eapply list_elem_of_lookup_2. }
    unfold grid_rendered in *. simpl in Hblank.
    rewrite Hg, Hgrid, Hitem_ok in Hblank. done.
  - destruct (grid_rendered (ui rt)) eqn:Hg; [|done].
    destruct (innovations (ui rt) !! index) as [item|] eqn:Hitem; [|done].
    injection Hstep as <-. exfalso.
    assert (item_renders item = true) as Hitem_ok.
    { eapply forallb_elem; [exact Hgrid|].
      by eapply list_elem_of_lookup_2. }
    unfold grid_rendered, card_onKeyDown, handleKeyDown in *.
    destruct (modal_rendered (ui rt)),
      (String.eqb key "Enter" || String.eqb key " "),
      (String.eqb key "Escape"); simpl in Hblank;
      rewrite ?Hg, ?Hgrid, ?Hitem_ok, ?Hmodal in Hblank; done.
  - injection Hstep as <-. exfalso. unfold grid_rendered, handleKeyDown in *.
    destruct (modal_rendered (ui rt)), (String.eqb key "Escape");
      simpl in Hblank; rewrite ?Hgrid, ?Hmodal in Hblank; done.
  - destruct (modal_rendered (ui rt)); [|done].
    injection Hstep as <-. exfalso. unfold grid_rendered in *.
    simpl in Hblank. rewrite Hgrid in Hblank. done.
  - destruct (modal_rendered (ui rt)); [|done].
    injection Hstep as <-. exfalso. unfold grid_rendered in *.
    rewrite Hgrid, Hmodal in Hblank. done.
  - destruct (modal_rendered (ui rt)); [|done].
    injection Hstep as <-. exfalso. unfold grid_rendered in *.
    simpl in Hblank. rewrite Hgrid in Hblank. done.
  - apply (step_settled rt id ai schedule rt') in Hstep as (_ & Hset & ->).
    destruct (fetchInnovations_try ai schedule) as [|items|e] eqn:Hres;
      [done| |].
    + unfold grid_rendered in Hblank. simpl in Hblank.
      rewrite Hmodal, andb_true_r in Hblank.
      destruct (negb (truthy (error (ui rt)))); [|done].
      destruct (forallb_false _ _ Hblank) as (bad & Hin & Hbad).
      by exists id, ai, schedule, items, bad.
    + exfalso. unfold grid_rendered in Hblank. simpl in Hblank.
      rewrite Hmodal in Hblank. done.
Qed.

Lemma shown_loading_page : shown loading_page.
Proof.
  apply (shown_step initial Mounted);
    [apply shown_initial|exact I|reflexivity|reflexivity].
Defined.

Lemma shown_loaded_page : shown loaded_page.
Proof.
  apply (shown_step loading_page
           (Settled 0 (answering one_idea all_images) [0]));
    [apply shown_loading_page|by exists [0]|
     vm_compute; reflexivity|reflexivity].
Defined.

Lemma shown_failed_page : shown failed_page.
Proof.
  apply (shown_step loading_page (Settled 0 refusing_second [0; 1]));
    [apply shown_loading_page|by exists [0; 1]|
     vm_compute; reflexivity|reflexivity].
Defined.

Lemma shown_modal_page : shown modal_page.
Proof.
  apply (shown_step loaded_page (CardClick 0));
    [apply shown_loaded_page|exact I|reflexivity|reflexivity].
Defined.

Example object_title_blanks_the_screen :
  step loading_page (Settled 0 (answering object_titled_idea all_images) [0])
    = Some unrenderable_page /\
  screen (ui unrenderable_page) = None.
Proof. split; vm_compute; reflexivity. Qed.

(** ** When the regenerate button can be used *)

Lemma reachable_loading_busy rt :
  reachable rt ->
  mounted rt = true -> loading (ui rt) = true -> inflight rt ≠ [].
Proof.
  induction 1 as [|rt ev rt' Hreach IH Hstep]; [done|].
  destruct ev as [| |index|index key|key| | | |id ai schedule];
    simpl in Hstep.
  - destruct (mounted rt); [done|]. injection Hstep as <-. simpl.
    intros _ _. by destruct (inflight rt).
  - destruct (regenerate_disabled (ui rt)); [done|].
    injection Hstep as <-. simpl. intros _ _. by destruct (inflight rt).
  - destruct (grid_rendered (ui rt)); [|done].
    destruct (innovations (ui rt) !! index); [|done].
    by injection Hstep as <-.
  - destruct (grid_rendered (ui rt)); [|done].
    destruct (innovations (ui rt) !! index); [|done].
    injection Hstep as <-. unfold card_onKeyDown, handleKeyDown.
    by destruct (modal_rendered (ui rt)),
      (String.eqb key "Enter" || String.eqb key " "),
      (String.eqb key "Escape").
  - injection Hstep as <-. unfold handleKeyDown.
    by destruct (modal_rendered (ui rt)), (String.eqb key "Escape").
  - destruct (modal_rendered (ui rt)); [|done]. by injection Hstep as <-.
  - destruct (modal_rendered (ui rt)); [|done]. by injection Hstep as <-.
  - destruct (modal_rendered (ui rt)); [|done]. by injection Hstep as <-.
  - apply (step_settled rt id ai schedule rt') in Hstep as (_ & Hset & ->).
    by destruct (fetchInnovations_try ai schedule).
Qed.

(** X7. On every page the program shows once the mount effect has run,
    the regenerate button is disabled exactly while an invocation is in
    flight: whenever none is, also after a failure, a click is accepted,
    starts one and leaves a page that is shown again; the button is never
    left disabled with nothing to wait for. *)
Theorem regenerate_disabled_iff_in_flight rt :
  shown rt ->
  mounted rt = true ->
  screen (ui rt) = Some (App_render (ui rt)) /\
  (button_disabled (App_render (ui rt)) = true <-> inflight rt ≠ []) /\
  (inflight rt = [] ->
   exists rt',
     step rt RegenerateClick = Some rt' /\
     inflight rt' = [issued rt] /\
     shown rt').
Proof.
  intros Hshown Hm.
  pose proof (shown_reachable rt Hshown) as Hreach.
  pose proof (shown_commits rt Hshown) as Hok.
  pose proof (reachable_page_inv rt Hreach) as [_ Hidle _ _].
  pose proof (reachable_loading_busy rt Hreach Hm) as Hbusy.
  split; [unfold screen; by rewrite Hok|]. simpl. split.
  - split; [by apply Hbusy|].
    intros Hin. destruct (loading (ui rt)); [done|].
    by destruct Hin; apply Hidle.
  - intros Hnone. unfold regenerate_disabled.
    destruct (loading (ui rt)) eqn:Hl.
    + by destruct (Hbusy eq_refl).
    + eexists. split; [done|]. split; [simpl; by rewrite Hnone|].
      apply (shown_step rt RegenerateClick); [done|exact I| |].
      * simpl. unfold regenerate_disabled. by rewrite Hl.
      * rewrite commits_render in *. simpl.
        by apply andb_true_iff in Hok as [_ ->].
Qed.

Lemma regenerate_disabled_iff_in_flight_witness :
  shown failed_page /\
  mounted failed_page = true /\
  screen (ui failed_page) = Some (App_render (ui failed_page)) /\
  (button_disabled (App_render (ui failed_page)) = true
   <-> inflight failed_page ≠ []) /\
  (inflight failed_page = [] ->
   exists rt',
     step failed_page RegenerateClick = Some rt' /\
     inflight rt' = [issued failed_page] /\
     shown rt').
Proof.
  split; [apply shown_failed_page|]. split; [reflexivity|].
  apply (regenerate_disabled_iff_in_flight failed_page);
    [apply shown_failed_page|reflexivity].
Defined.

(** X8. Only an invocation that settles ends the loading phase: no other
    event of the page (no click, no key, no timer) turns [loading] from true
    to false. *)
Theorem only_settling_ends_loading rt ev rt' :
  step rt ev = Some rt' ->
  loading (ui rt) = true ->
  loading (ui rt') = false ->
  exists id ai schedule,
    ev = Settled id ai schedule /\
    id ∈ inflight rt /\
    fetchInnovations_try ai schedule ≠ Pending.
Proof.
  intros Hstep Hbefore Hafter.
  destruct ev as [| |index|index key|key| | | |id ai schedule];
    simpl in Hstep.
  - destruct (mounted rt); [done|]. by injection Hstep as <-.
  - unfold regenerate_disabled in Hstep. by rewrite Hbefore in Hstep.
  - unfold grid_rendered in Hstep. by rewrite Hbefore in Hstep.
  - unfold grid_rendered in Hstep. by rewrite Hbefore in Hstep.
  - injection Hstep as <-. unfold handleKeyDown in Hafter.
    destruct (modal_rendered (ui rt)), (String.eqb key "Escape");
      simpl in Hafter; congruence.
  - destruct (modal_rendered (ui rt)); [|done].
    injection Hstep as <-. simpl in Hafter. congruence.
  - destruct (modal_rendered (ui rt)); [|done].
    injection Hstep as <-. congruence.
  - destruct (modal_rendered (ui rt)); [|done].
    injection Hstep as <-. simpl in Hafter. congruence.
  - apply (step_settled rt id ai schedule rt') in Hstep as (Hin & Hset & _).
    by exists id, ai, schedule.
Qed.

Lemma only_settling_ends_loading_witness :
  step loading_page (Settled 0 refusing_second [0; 1]) = Some failed_page /\
  loading (ui loading_page) = true /\
  loading (ui failed_page) = false /\
  exists id ai schedule,
    Settled 0 refusing_second [0; 1] = Settled id ai schedule /\
    id ∈ inflight loading_page /\
    fetchInnovations_try ai schedule ≠ Pending.
Proof.
  do 3 (split; [vm_compute; reflexivity|]).
  apply (only_settling_ends_loading loading_page
           (Settled 0 refusing_second [0; 1]) failed_page);
    vm_compute; reflexivity.
Defined.

(** ** The error message *)

Lemma error_fixed_step rt ev rt' :
  ((error (ui rt) = None \/ error (ui rt) = Some FETCH_ERROR) /\
   (error (ui rt) ≠ None -> console rt ≠ [])) ->
  step rt ev = Some rt' ->
  (error (ui rt') = None \/ error (ui rt') = Some FETCH_ERROR) /\
  (error (ui rt') ≠ None -> console rt' ≠ []).
Proof.
  intros Hinv Hstep.
  destruct ev as [| |index|index key|key| | | |id ai schedule];
    simpl in Hstep.
  - destruct (mounted rt); [done|]. injection Hstep as <-. simpl. by split; [left|].
  - destruct (regenerate_disabled (ui rt)); [done|].
    injection Hstep as <-. simpl. by split; [left|].
  - destruct (grid_rendered (ui rt)); [|done].
    destruct (innovations (ui rt) !! index); [|done].
    by injection Hstep as <-.
  - destruct (grid_rendered (ui rt)); [|done].
    destruct (innovations (ui rt) !! index); [|done].
    injection Hstep as <-. unfold card_onKeyDown, handleKeyDown.
    by destruct (modal_rendered (ui rt)),
      (String.eqb key "Enter" || String.eqb key " "),
      (String.eqb key "Escape").
  - injection Hstep as <-. unfold handleKeyDown.
    by destruct (modal_rendered (ui rt)), (String.eqb key "Escape").
  - destruct (modal_rendered (ui rt)); [|done]. by injection Hstep as <-.
  - destruct (modal_rendered (ui rt)); [|done]. by injection Hstep as <-.
  - destruct (modal_rendered (ui rt)); [|done]. by injection Hstep as <-.
  - apply (step_settled rt id ai schedule rt') in Hstep as (_ & Hset & ->).
    destruct (fetchInnovations_try ai schedule) as [|items|e]; [done|done|].
    simpl. split; [by right|]. intros _. by destruct (console rt).
Qed.

Lemma reachable_by_calls_error rt :
  reachable_by_calls rt ->
  (error (ui rt) = None \/ error (ui rt) = Some FETCH_ERROR) /\
  (error (ui rt) ≠ None -> console rt ≠ []).
Proof.
  induction 1 as [|rt ev rt' _ IH Hstep|rt _ IH].
  - simpl. by split; [left|].
  - by eapply error_fixed_step.
  - simpl. by split; [left|].
Qed.

Lemma reachable_by_view rt : reachable rt -> reachable_by_calls rt.
Proof.
  induction 1 as [|rt ev rt' _ IH Hstep];
    eauto using by_calls_initial, by_calls_step.
Qed.

(** X9. Whatever failed and however the handlers were called, [error] is
    either [null] or the one fixed message: the empty string, which the
    render would treat as no error, never occurs, so an error is shown
    exactly when [error] is not [null] and the page is not loading; and
    whenever [error] is set, [console.error] has been called. *)
Theorem error_is_null_or_the_fixed_message rt :
  reachable_by_calls rt ->
  (error (ui rt) = None \/ error (ui rt) = Some FETCH_ERROR) /\
  (truthy (error (ui rt)) = true <-> error (ui rt) ≠ None) /\
  (body (App_render (ui rt)) = ErrorMessage FETCH_ERROR
   <-> loading (ui rt) = false /\ error (ui rt) ≠ None) /\
  (error (ui rt) ≠ None -> console rt ≠ []).
Proof.
  intros Hreach.
  destruct (reachable_by_calls_error rt Hreach) as [Herr Hlog].
  split; [done|]. split; [|split; [|done]].
  - destruct Herr as [->| ->]; simpl; split; done.
  - unfold App_render. simpl.
    destruct (loading (ui rt)); [split; [done|by intros [? _]]|].
    destruct Herr as [->| ->]; simpl; split; try done. by intros [_ ?].
Qed.

Lemma error_is_null_or_the_fixed_message_witness :
  reachable_by_calls stale_page /\
  (error (ui stale_page) = None \/ error (ui stale_page) = Some FETCH_ERROR) /\
  (truthy (error (ui stale_page)) = true <-> error (ui stale_page) ≠ None) /\
  (body (App_render (ui stale_page)) = ErrorMessage FETCH_ERROR
   <-> loading (ui stale_page) = false /\ error (ui stale_page) ≠ None) /\
  (error (ui stale_page) ≠ None -> console stale_page ≠ []).
Proof.
  assert (Hreach : reachable_by_calls stale_page).
  { apply (by_calls_step later_failed_page
             (Settled 0 (answering one_idea all_images) [0]));
      [|vm_compute; reflexivity].
    apply (by_calls_step racing_page (Settled 1 refusing_second [0; 1]));
      [|vm_compute; reflexivity].
    apply by_calls_regenerate.
    apply (by_calls_step initial Mounted); [apply by_calls_initial|reflexivity]. }
  split; [exact Hreach|].
  apply (error_is_null_or_the_fixed_message stale_page Hreach).
Defined.

(** ** What is on the screen *)

(** The conditions under which [step] accepts an event are those under
    which the element that delivers it is rendered and enabled. *)
Lemma render_agrees_with_step s :
  button_disabled (App_render s) = regenerate_disabled s /\
  (grid_rendered s = true <-> exists cards, body (App_render s) = Grid cards) /\
  (modal_rendered s = true <-> modal (App_render s) ≠ None).
Proof.
  unfold App_render, grid_rendered, modal_rendered, truthy. simpl.
  split; [done|]. split.
  - destruct (loading s); simpl; [split; [done|by intros [? ?]]|].
    destruct (error s) as [message|]; simpl; [|split; eauto].
    destruct (String.eqb message ""); simpl; [split; eauto|].
    split; [done|by intros [? ?]].
  - by destruct (selectedInnovation s).
Qed.

Lemma cards_show_items (l : list InnovationWithImage) :
  card_item <$> imap InnovationCard l = l.
Proof.
  apply list_eq. intros i.
  rewrite list_lookup_fmap, list_lookup_imap. by destruct (l !! i).
Qed.

(** X10. On every page the program shows, exactly what is stored is on the
    screen: the tree [App] returned was committed, and the cards displayed
    are the stored items, in order (while the loader or the error message
    is shown there are no stored items that would be hidden).  The loader
    comes with the disabled button labelled [Generating...]; the error
    message is the fixed one; the card at position [i] carries item [i],
    index [i] and an animation delay of [i * 100] milliseconds.  The screen
    goes blank exactly when an invocation fulfils with an item whose
    [title] or [description] is, or holds, an object: React cannot render
    it. *)
Theorem screen_shows_what_is_stored rt :
  shown rt ->
  screen (ui rt) = Some (App_render (ui rt)) /\
  displayed_items (App_render (ui rt)) = innovations (ui rt) /\
  (button_label (App_render (ui rt)) = "Generating..."
   <-> body (App_render (ui rt)) = Loader) /\
  match body (App_render (ui rt)) with
  | Loader => button_disabled (App_render (ui rt)) = true
  | ErrorMessage text =>
      text = FETCH_ERROR /\ button_disabled (App_render (ui rt)) = false
  | Grid cards =>
      button_disabled (App_render (ui rt)) = false /\
      error (ui rt) = None /\
      length cards = length (innovations (ui rt)) /\
      forall i card, cards !! i = Some card ->
        innovations (ui rt) !! i = Some (card_item card) /\
        card_index card = i /\ animationDelay card = i * 100
  end /\
  (forall ev rt',
     step rt ev = Some rt' ->
     (screen (ui rt') = None <->
      exists id ai schedule items bad,
        ev = Settled id ai schedule /\
        fetchInnovations_try ai schedule = Fulfilled items /\
        bad ∈ items /\ item_renders bad = false)).
Proof.
  intros Hshown.
  pose proof (shown_reachable rt Hshown) as Hreach.
  pose proof (shown_commits rt Hshown) as Hok.
  pose proof (reachable_page_inv rt Hreach) as Hinv.
  destruct (reachable_by_calls_error rt (reachable_by_view rt Hreach))
    as [Herr _].
  split; [unfold screen; by rewrite Hok|].
  split; [|split; [|split]].
  - unfold displayed_items, App_render. simpl.
    destruct (loading (ui rt)) eqn:Hl.
    { by rewrite (page_inv_loading rt Hinv Hl). }
    destruct Herr as [He|He]; rewrite He; simpl;
      [apply cards_show_items|].
    destruct (innovations (ui rt)) as [|item rest] eqn:Hi; [done|].
    destruct (inv_items rt Hinv) as [_ Hnone]; [by rewrite Hi|congruence].
  - unfold App_render. simpl. destruct (loading (ui rt)); [done|].
    destruct Herr as [He|He]; rewrite He; simpl; done.
  - unfold App_render. simpl. destruct (loading (ui rt)) eqn:Hl; [done|].
    destruct Herr as [He|He]; rewrite He; simpl; [|done].
    split; [done|]. split; [done|]. split; [apply length_imap|].
    intros i card. rewrite list_lookup_imap.
    destruct (innovations (ui rt) !! i) as [item|]; simpl; [|done].
    by intros [= <-].
  - intros ev rt' Hstep. unfold screen. split.
    + destruct (commits (App_render (ui rt'))) eqn:Hc; [done|]. intros _.
      by eapply blank_only_after_unrenderable.
    + intros (id & ai & schedule & items & bad & -> & Hres & Hin & Hbad).
      apply step_settled in Hstep as (Hid & _ & ->).
      destruct (inv_single rt Hinv id Hid) as (_ & Hnoerr & _).
      rewrite Hres, commits_render. unfold grid_rendered. simpl.
      rewrite Hnoerr. simpl.
      destruct (forallb item_renders items) eqn:Hall; [|done].
      rewrite (forallb_elem _ _ _ Hall Hin) in Hbad. done.
Qed.

Lemma screen_shows_what_is_stored_witness :
  shown loaded_page /\
  screen (ui loaded_page) = Some (App_render (ui loaded_page)) /\
  displayed_items (App_render (ui loaded_page)) = [sky_farm] /\
  (step loading_page (Settled 0 (answering object_titled_idea all_images) [0])
     = Some unrenderable_page ->
   (screen (ui unrenderable_page) = None <->
    exists id ai schedule items bad,
      Settled 0 (answering object_titled_idea all_images) [0]
        = Settled id ai schedule /\
      fetchInnovations_try ai schedule = Fulfilled items /\
      bad ∈ items /\ item_renders bad = false)).
Proof.
  split; [apply shown_loaded_page|].
  destruct (screen_shows_what_is_stored loaded_page shown_loaded_page)
    as (Hscreen & Hitems & _).
  split; [exact Hscreen|]. split; [exact Hitems|].
  destruct (screen_shows_what_is_stored loading_page shown_loading_page)
    as (_ & _ & _ & _ & Hblank).
  apply (Hblank (Settled 0 (answering object_titled_idea all_images) [0])
           unrenderable_page).
Defined.

(** ** The modal across a regeneration *)

(** X11. Regenerating does not close the modal.  On a page the program
    shows with the modal open on an item, an accepted click on the
    regenerate button empties the list but leaves the modal showing that
    item, and when the new invocation has settled the modal still shows it
    whichever items arrived, unless one of them cannot be rendered: then
    the screen is blank, modal included. *)
Theorem modal_survives_regeneration rt item :
  shown rt ->
  selectedInnovation (ui rt) = Some item ->
  loading (ui rt) = false ->
  exists rt',
    step rt RegenerateClick = Some rt' /\
    shown rt' /\
    innovations (ui rt') = [] /\
    (exists page, screen (ui rt') = Some page /\ modal page = Some item) /\
    forall ai schedule rt'',
      step rt' (Settled (issued rt) ai schedule) = Some rt'' ->
      match screen (ui rt'') with
      | Some page => modal page = Some item
      | None =>
          exists items bad,
            fetchInnovations_try ai schedule = Fulfilled items /\
            bad ∈ items /\ item_renders bad = false
      end.
Proof.
  intros Hshown Hsel Hl.
  pose proof (shown_commits rt Hshown) as Hok.
  assert (Hstep : step rt RegenerateClick = Some (handleRegenerate rt)).
  { simpl. unfold regenerate_disabled. by rewrite Hl. }
  assert (Hok' : commits (App_render (ui (handleRegenerate rt))) = true).
  { rewrite commits_render in *. simpl.
    by apply andb_true_iff in Hok as [_ ->]. }
  assert (Hshown' : shown (handleRegenerate rt)).
  { by apply (shown_step rt RegenerateClick). }
  exists (handleRegenerate rt). split; [done|]. split; [done|].
  split; [done|]. split.
  { exists (App_render (ui (handleRegenerate rt))).
    unfold screen. by rewrite Hok'. }
  intros ai schedule rt'' Hsettle. unfold screen.
  destruct (commits (App_render (ui rt''))) eqn:Hc.
  - apply step_settled in Hsettle as (_ & _ & ->).
    simpl. by rewrite resume_keeps_selection.
  - destruct (blank_only_after_unrenderable _ _ _ Hshown' Hsettle Hc)
      as (id & ai' & schedule' & items & bad & Hev & Hres & Hin & Hbad).
    injection Hev as _ <- <-. by exists items, bad.
Qed.

Lemma modal_survives_regeneration_witness :
  shown modal_page /\
  selectedInnovation (ui modal_page) = Some sky_farm /\
  loading (ui modal_page) = false /\
  exists rt',
    step modal_page RegenerateClick = Some rt' /\
    shown rt' /\
    innovations (ui rt') = [] /\
    (exists page, screen (ui rt') = Some page /\ modal page = Some sky_farm) /\
    forall ai schedule rt'',
      step rt' (Settled (issued modal_page) ai schedule) = Some rt'' ->
      match screen (ui rt'') with
      | Some page => modal page = Some sky_farm
      | None =>
          exists items bad,
            fetchInnovations_try ai schedule = Fulfilled items /\
            bad ∈ items /\ item_renders bad = false
      end.
Proof.
  split; [apply shown_modal_page|].
  do 2 (split; [reflexivity|]).
  apply (modal_survives_regeneration modal_page sky_farm);
    [apply shown_modal_page|reflexivity|reflexivity].
Defined.

(** ** The modal's listener *)

Lemma lifecycle_keeps_one_listener st ev st' :
  match ModalEffect.effect st with
  | Some (onClose, h) =>
      ModalEffect.keydown st = [h] /\ ModalEffect.onClose_of h = onClose
  | None => ModalEffect.keydown st = []
  end ->
  ModalEffect.lifecycle st ev = Some st' ->
  match ModalEffect.effect st' with
  | Some (onClose, h) =>
      ModalEffect.keydown st' = [h] /\ ModalEffect.onClose_of h = onClose
  | None => ModalEffect.keydown st' = []
  end /\
  fst <$> ModalEffect.effect st'
  = match ev with
    | ModalEffect.Mount onClose | ModalEffect.Rerender onClose => Some onClose
    | ModalEffect.Unmount => None
    end.
Proof.
  unfold ModalEffect.lifecycle.
  destruct ev as [c|c|], (ModalEffect.effect st) as [[d h]|] eqn:Heff;
    try done.
  - intros Hk [= <-]. simpl. rewrite Hk. done.
  - intros [Hk Hc]. destruct (Nat.eqb_spec c d) as [->|Hne].
    + intros [= <-]. rewrite Heff. done.
    + intros [= <-]. simpl.
      unfold ModalEffect.removeEventListener. rewrite Hk, filter_cons.
      case_decide; done.
  - intros [Hk Hc] [= <-]. simpl.
    unfold ModalEffect.removeEventListener. rewrite Hk, filter_cons.
    case_decide; done.
Qed.

Lemma lifecycles_keep_one_listener evs st st' :
  match ModalEffect.effect st with
  | Some (onClose, h) =>
      ModalEffect.keydown st = [h] /\ ModalEffect.onClose_of h = onClose
  | None => ModalEffect.keydown st = []
  end ->
  ModalEffect.lifecycles st evs = Some st' ->
  match ModalEffect.effect st' with
  | Some (onClose, h) =>
      ModalEffect.keydown st' = [h] /\ ModalEffect.onClose_of h = onClose
  | None => ModalEffect.keydown st' = []
  end /\
  fst <$> ModalEffect.effect st'
  = foldl (fun _ ev =>
             match ev with
             | ModalEffect.Mount onClose
             | ModalEffect.Rerender onClose => Some onClose
             | ModalEffect.Unmount => None
             end) (fst <$> ModalEffect.effect st) evs.
Proof.
  revert st. induction evs as [|ev rest IH]; intros st Hinv; simpl.
  - by intros [= <-].
  - destruct (ModalEffect.lifecycle st ev) as [st1|] eqn:Hstep; [|done].
    destruct (lifecycle_keeps_one_listener st ev st1 Hinv Hstep)
      as [Hinv1 Hlast].
    intros Hrun. destruct (IH st1 Hinv1 Hrun) as [Hinv' Hfold].
    split; [done|]. by rewrite Hfold, Hlast.
Qed.

(** X12. The modal's effect never leaks a listener.  After any sequence of
    mounts, renders and unmounts of the modal, [window] holds at most one
    [keydown] listener of the modal: none when the modal is unmounted, and
    when it is mounted exactly one, which calls the [onClose] of the latest
    render. *)
Theorem modal_keeps_one_current_listener evs st :
  ModalEffect.lifecycles ModalEffect.unmounted evs = Some st ->
  ModalEffect.onClose_of <$> ModalEffect.keydown st
  = option_list (ModalEffect.latest_onClose evs) /\
  length (ModalEffect.keydown st) <= 1.
Proof.
  intros Hrun.
  destruct (lifecycles_keep_one_listener evs ModalEffect.unmounted st)
    as [Hinv Hlast]; [done|done|].
  unfold ModalEffect.latest_onClose. simpl in Hlast. rewrite <- Hlast.
  destruct (ModalEffect.effect st) as [[c h]|].
  - destruct Hinv as [-> <-]. simpl. split; [done|lia].
  - rewrite Hinv. simpl. split; [done|lia].
Qed.

Lemma modal_keeps_one_current_listener_witness :
  ModalEffect.lifecycles ModalEffect.unmounted
    [ModalEffect.Mount 7; ModalEffect.Rerender 8; ModalEffect.Rerender 8;
     ModalEffect.Unmount; ModalEffect.Mount 9]
  = Some {| ModalEffect.keydown := [(2, 9)]; ModalEffect.created := 3;
            ModalEffect.effect := Some (9, (2, 9)) |} /\
  ModalEffect.onClose_of <$> [(2, 9)]
  = option_list
      (ModalEffect.latest_onClose
         [ModalEffect.Mount 7; ModalEffect.Rerender 8; ModalEffect.Rerender 8;
          ModalEffect.Unmount; ModalEffect.Mount 9]) /\
  length [(2, 9)] <= 1.
Proof.
  split; [vm_compute; reflexivity|].
  apply (modal_keeps_one_current_listener
           [ModalEffect.Mount 7; ModalEffect.Rerender 8; ModalEffect.Rerender 8;
            ModalEffect.Unmount; ModalEffect.Mount 9]
           {| ModalEffect.keydown := [(2, 9)]; ModalEffect.created := 3;
              ModalEffect.effect := Some (9, (2, 9)) |}).
  vm_compute; reflexivity.
Defined.
